(** * Grouped bar chart: the data-to-geometry pipeline

    A shallow embedding of the grouped bar chart module
    ([src/src/tasks/js-doc.js], the chart closure returned by [module()]):
    the normaliser [cleanData], the grouping step [prepareData] and
    [buildLayers], the scale builder [buildScales] with [getYMax], the
    animation delay table of [drawGroupedBar], the two hit-testers
    [getNearestDataPoint] and [getNearestDataPoint2], and the configuration
    accessors [margin] and [colorMap].

    Conventions of the model.
    - A JavaScript number is an integer or NaN ([jsnum]); fractions,
      infinities, the sign of zero and the rounding of doubles are outside
      the model, so a sum is exact where the code adds doubles.  The only
      fractions the chart needs are the padding ratios of the band scales,
      which are rationals ([Q]) and are divided exactly where d3 divides
      doubles: a step that d3 floors from a quotient just under an integer
      is one more here.  As every band scale is built with [rangeRound],
      positions and bandwidths are integers again.
    - A plain JavaScript object used as a dictionary is a [gmap] from
      property names to values; [undefined] is a failed lookup, except
      where the code reads a property of an object through its prototype
      ([permute], [buildLayers]): there a name that [Object.prototype]
      answers reads as the inherited member.
    - The input of a render is a sequence of raw objects with primitive
      fields.  [cleanData] rewrites them under the three configurable
      field names; the stages after it are modelled on the documented row
      type ([GroupedBarChartData]: [name] and [group] strings, [value] a
      number), the record [Row], and [exports] has no result in the model
      when [cleanData] leaves a row that is not of this type.  Where a
      later stage reads [d[nameLabel]] or [d[groupLabel]] it reads the
      object that [cleanData] has left, see [at_groupLabel].
    - The functions imported from d3 ([range], [sum], [max], [permute],
      [nest], [scaleBand], [scaleOrdinal]) are modelled from their
      published sources (d3-array 1/2, d3-collection 1, d3-scale 2/3). *)

From Stdlib Require Import ZArith QArith Qround.
From stdpp Require Import base decidable option list numbers strings gmap fin_maps.

Local Open Scope Z_scope.

(** ** JavaScript values *)

(** A number: an integer or NaN. *)
Inductive jsnum : Type :=
  | Num (z : Z)
  | NaN.

#[global] Instance jsnum_eq_dec : EqDecision jsnum.
Proof. solve_decision. Defined.

#[global] Instance jsnum_inhabited : Inhabited jsnum := populate NaN.

(** SameValueZero, the equality of a [Set], and [decide] agree on [jsnum]:
    NaN is the same value as NaN, and there is one zero. *)

(** [a < b], [a <= b], [a >= b]: false as soon as one side is NaN. *)
Definition js_lt (a b : jsnum) : bool :=
  match a, b with Num x, Num y => bool_decide (x < y) | _, _ => false end.
Definition js_le (a b : jsnum) : bool :=
  match a, b with Num x, Num y => bool_decide (x ≤ y) | _, _ => false end.
Definition js_ge (a b : jsnum) : bool := js_le b a.

Definition js_add (a b : jsnum) : jsnum :=
  match a, b with Num x, Num y => Num (x + y) | _, _ => NaN end.
Definition js_sub (a b : jsnum) : jsnum :=
  match a, b with Num x, Num y => Num (x - y) | _, _ => NaN end.
Definition js_mul (a b : jsnum) : jsnum :=
  match a, b with Num x, Num y => Num (x * y) | _, _ => NaN end.

(** Truthiness of a number: neither zero nor NaN. *)
Definition num_truthy (a : jsnum) : bool :=
  match a with Num z => negb (bool_decide (z = 0)) | NaN => false end.

(** Truthiness of a string: not empty. *)
Definition str_truthy (s : string) : bool :=
  match s with EmptyString => false | String _ _ => true end.

(** A number read from a scale or an object, [undefined] included. *)
Definition of_undef (o : option Z) : jsnum :=
  match o with Some z => Num z | None => NaN end.

(** ** Rows *)

(** One row of [GroupedBarChartData] after normalisation. *)
Record Row : Type := mkRow {
  name : string;
  group : string;
  value : jsnum;
}.

#[global] Instance Row_eq_dec : EqDecision Row.
Proof. solve_decision. Defined.

Definition getName (d : Row) : string := name d.
Definition getValue (d : Row) : jsnum := value d.
Definition getGroup (d : Row) : string := group d.

(** The three configurable field names, [nameLabel], [valueLabel] and
    [groupLabel]. *)
Record Labels : Type := mkLabels {
  nameLabel : string;
  valueLabel : string;
  groupLabel : string;
}.

Definition default_labels : Labels := mkLabels "name" "value" "group".

(** [d[nameLabel]] and [d[groupLabel]] on a row of the data.  The rows of
    the data are the objects that [cleanData] has just rewritten under the
    same field names, and [d.name = d[nameLabel]] is the last of its
    assignments: reading [d[nameLabel]] again gives [d.name], and reading
    [d[groupLabel]] again gives [d.group], unless the group label is
    "name", the one field written after [d.group], where it gives
    [d.name].  Both are proved of [cleanData] on raw objects, whatever the
    field names and the fields ([cleaned_label_reads]). *)
Definition at_nameLabel (lb : Labels) (d : Row) : string := name d.

Definition at_groupLabel (lb : Labels) (d : Row) : string :=
  if decide (groupLabel lb = "name"%string) then name d else group d.

(** ** Arrays *)

(** [arr.indexOf(x)] on an array of strings, on which the strict equality
    of [indexOf] is equality; [None] stands for -1. *)
Fixpoint indexOf (arr : list string) (x : string) : option nat :=
  match arr with
  | [] => None
  | y :: t => if decide (x = y) then Some 0%nat else S <$> indexOf t x
  end.

Section arrays.
Context {A : Type} `{EqDecision A}.

(** [arr.filter((elem, pos) => f elem pos)], from position [pos]. *)
Fixpoint filter_from (f : A → nat → bool) (pos : nat) (arr : list A) : list A :=
  match arr with
  | [] => []
  | elem :: t =>
      if f elem pos then elem :: filter_from f (S pos) t
      else filter_from f (S pos) t
  end.

(** The first-seen order of the distinct elements of a list, written
    independently of [uniq]: walk the list and keep what was not seen. *)
Fixpoint first_seen_from (seen : list A) (l : list A) : list A :=
  match l with
  | [] => []
  | x :: t =>
      if decide (x ∈ seen) then first_seen_from seen t
      else x :: first_seen_from (x :: seen) t
  end.

Definition first_seen (l : list A) : list A := first_seen_from [] l.

(** [arr.find(p)]. *)
Fixpoint js_find (p : A → bool) (arr : list A) : option A :=
  match arr with
  | [] => None
  | x :: t => if p x then Some x else js_find p t
  end.
End arrays.

(** [uniq], on an array of strings: keep the elements that [indexOf]
    finds at their own position. *)
Definition uniq (arrArg : list string) : list string :=
  filter_from (λ elem pos, bool_decide (indexOf arrArg elem = Some pos)) 0 arrArg.

(** The properties that a plain object inherits from [Object.prototype]. *)
Definition object_prototype : list string :=
  [ "constructor"; "__defineGetter__"; "__defineSetter__"; "hasOwnProperty";
    "__lookupGetter__"; "__lookupSetter__"; "isPrototypeOf";
    "propertyIsEnumerable"; "toString"; "valueOf"; "__proto__";
    "toLocaleString" ]%string.

(** ** d3-array *)

(** [Math.ceil(a / b)] for [b] other than zero. *)
Definition ceil_div (a b : Z) : Z := - ((- a) / b).

(** [range(start, stop, step)]:
    [n = Math.max(0, Math.ceil((stop - start) / step)) | 0] elements
    [start + i * step].  A zero step divides to NaN or an infinity, which
    [| 0] turns into no element at all. *)
Definition d3_range (start stop step : Z) : list Z :=
  let n := if decide (step = 0) then 0
           else Z.max 0 (ceil_div (stop - start) step) in
  (λ i : nat, start + Z.of_nat i * step) <$> seq 0 (Z.to_nat n).

(** [max(values)]: [undefined] ([None]) until a value compares with itself,
    then the largest one; NaN never wins a comparison. *)
Definition d3_max_step (max : option jsnum) (value : jsnum) : option jsnum :=
  match max with
  | Some m => if js_lt m value then Some value else max
  | None => if js_ge value value then Some value else None
  end.

Definition d3_max (values : list jsnum) : option jsnum :=
  fold_left d3_max_step values None.

(** ** The grouping step *)

(** What reading a property of the object built by [rollup] gives: the
    value of a group, the rows of the category (under [values]), or, for a
    name that the object does not own, the member of [Object.prototype]
    under this name (a function, and for [__proto__] the prototype
    itself). *)
Inductive rollup_val : Type :=
  | RNum (v : jsnum)
  | RRows (rs : list Row)
  | RInherited (k : string).

(** Unary plus on what [permute] reads from a rollup object.  An array of
    row objects prints as [[object Object],...], which is not a number; the
    empty array prints as the empty string, which is zero; a function and
    the prototype object are not numbers. *)
Definition rollup_number (o : option rollup_val) : jsnum :=
  match o with
  | None => NaN
  | Some (RNum v) => v
  | Some (RRows []) => Num 0
  | Some (RRows (_ :: _)) => NaN
  | Some (RInherited _) => NaN
  end.

(** [source[key]] on the rollup object: an own property, else the
    inherited member, else [undefined]. *)
Definition rollup_get (source : gmap string rollup_val) (key : string)
  : option rollup_val :=
  match source !! key with
  | Some v => Some v
  | None => if decide (key ∈ object_prototype) then Some (RInherited key)
            else None
  end.

(** [permute(source, keys)]: the properties of [source] in the order of
    [keys]. *)
Definition permute (source : gmap string rollup_val) (keys : list string)
  : list (option rollup_val) :=
  rollup_get source <$> keys.

(** [sum(values)]: [if (value = +value) sum += value], so NaN, [undefined]
    and zero are passed over. *)
Definition d3_sum (values : list (option rollup_val)) : jsnum :=
  Num (fold_left
         (λ sum value,
            match rollup_number value with
            | Num v => if num_truthy (Num v) then sum + v else sum
            | NaN => sum
            end)
         values 0).

(** [o[k] = v] on a plain object, for [v] a primitive or the prototype of
    [o]: the inherited accessor [__proto__] swallows the assignment of a
    primitive, and setting the prototype to what it is changes nothing. *)
Definition js_set {V : Type} (k : string) (v : V) (o : gmap string V)
  : gmap string V :=
  if decide (k = "__proto__"%string) then o else <[k := v]> o.

(** [Object.assign({}, a, b)] on plain objects: the properties of [b] win
    over those of [a], and [__proto__], which is assigned like any other
    property, does not become a property of the result. *)
Definition object_assign {V : Type} (a b : gmap string V) : gmap string V :=
  delete "__proto__"%string (b ∪ a).

(** The insertion-ordered map of [nest]: a row joins the array of its key,
    a key seen for the first time goes to the end. *)
Fixpoint nest_push (keyValue : string) (value : Row)
    (valuesByKey : list (string * list Row)) : list (string * list Row) :=
  match valuesByKey with
  | [] => [(keyValue, [value])]
  | (k, values) :: rest =>
      if decide (keyValue = k) then (k, values ++ [value]) :: rest
      else (k, values) :: nest_push keyValue value rest
  end.

Definition nest_entries (key : Row → string) (array : list Row)
  : list (string * list Row) :=
  fold_left (λ valuesByKey value, nest_push (key value) value valuesByKey)
            array [].

(** The [rollup] callback of [prepareData]: the loop over the rows of the
    category, which skips a row whose [entry[groupLabel]] is falsy and
    files the value of any other under [entry[groupLabel]], then
    [ret.values = values]. *)
Definition rollup_loop (lb : Labels) (values : list Row)
    (ret : gmap string rollup_val) : gmap string rollup_val :=
  fold_left
    (λ ret entry,
       if str_truthy (at_groupLabel lb entry)
       then js_set (at_groupLabel lb entry) (RNum (getValue entry)) ret
       else ret)
    values ret.

Definition rollup (lb : Labels) (values : list Row) : gmap string rollup_val :=
  <["values" := RRows values]> (rollup_loop lb values ∅).

(** A property of a layer object; [PInherited k] is the member of
    [Object.prototype] under [k]. *)
Inductive prop : Type :=
  | PUndef
  | PNum (v : jsnum)
  | PStr (s : string)
  | PRows (rs : list Row)
  | PInherited (k : string).

Definition prop_of_rollup (r : rollup_val) : prop :=
  match r with
  | RNum v => PNum v
  | RRows rs => PRows rs
  | RInherited k => PInherited k
  end.

Abbreviation Layer := (gmap string prop).

(** [Object.assign({}, {total, key}, data.value)]. *)
Definition layer_of_entry (lb : Labels) (groups : list string)
    (entry : string * list Row) : Layer :=
  let data_value := rollup lb entry.2 in
  object_assign
    {[ "total" := PNum (d3_sum (permute data_value groups));
       "key" := PStr entry.1 ]}
    (prop_of_rollup <$> data_value).

(** [prepareData]: the groups and the transformed data. *)
Definition prepare_groups (data : list Row) : list string :=
  uniq (getGroup <$> data).

Definition prepare_transformed (lb : Labels) (data : list Row) : list Layer :=
  layer_of_entry lb (prepare_groups data) <$> nest_entries getName data.

(** [item[key]] on a layer object: an own property, else the inherited
    member, else [undefined]. *)
Definition js_get (item : Layer) (key : string) : prop :=
  match item !! key with
  | Some v => v
  | None => if decide (key ∈ object_prototype) then PInherited key
            else PUndef
  end.

(** [buildLayers]: [Object.assign({}, item, ret)], where every group key
    is an own property of [ret], holding what [item[key]] reads:
    [undefined] where the category has no such group, unless
    [Object.prototype] answers the name. *)
Definition buildLayer (groups : list string) (item : Layer) : Layer :=
  let ret :=
    fold_left (λ ret key, js_set key (js_get item key) ret)
              groups (∅ : Layer) in
  object_assign item ret.

Definition buildLayers (groups : list string) (transformedData : list Layer)
  : list Layer :=
  buildLayer groups <$> transformedData.

(** ** The magnitude bound *)

#[global] Instance jsnum_countable : Countable jsnum :=
  inj_countable'
    (λ a, match a with Num z => Some z | NaN => None end)
    (λ o, match o with Some z => Num z | None => NaN end)
    (λ a, match a with Num _ => eq_refl | NaN => eq_refl end).

(** [getYMax]: 1 when the set of values is the singleton of zero. *)
Definition getYMax (data : list Row) : option jsnum :=
  let uniqueDataPoints : gset jsnum := list_to_set (getValue <$> data) in
  let isAllZero :=
    bool_decide (size uniqueDataPoints = 1%nat)
    && bool_decide (Num 0 ∈ uniqueDataPoints) in
  if isAllZero then Some (Num 1) else d3_max (getValue <$> data).

(** ** d3-scale *)

(** The domain of an ordinal or band scale: the keys in the order given,
    a key already indexed being passed over. *)
Definition ordinal_domain (keys : list string) : list string :=
  fold_left (λ domain key, if decide (key ∈ domain) then domain
                           else domain ++ [key])
            keys [].

(** A band scale as [scaleBand().domain(..).rangeRound([r0, r1]).padding(p)]
    leaves it: rounding is on, the alignment is the default 1/2. *)
Record band_scale : Type := mkBand {
  band_domain : list string;
  band_r0 : Z;
  band_r1 : Z;
  band_padding : Q;
}.

Definition scaleBand (keys : list string) (r0 r1 : Z) (padding : Q)
  : band_scale :=
  mkBand (ordinal_domain keys) r0 r1 padding.

(** [Math.round]. *)
Definition js_round (x : Q) : Z := Qfloor (x + (1 # 2))%Q.

(** [Math.max] and [Math.min] on fractions. *)
Definition math_max (a b : Q) : Q := if Qle_bool a b then b else a.
Definition math_min (a b : Q) : Q := if Qle_bool a b then a else b.

(** [rescale()], with [padding(p)] setting
    [paddingInner = Math.min(1, paddingOuter = p)]. *)
Definition band_reverse (s : band_scale) : bool :=
  bool_decide (band_r1 s < band_r0 s).
Definition band_lo (s : band_scale) : Z :=
  if band_reverse s then band_r1 s else band_r0 s.
Definition band_hi (s : band_scale) : Z :=
  if band_reverse s then band_r0 s else band_r1 s.
Definition paddingOuter (s : band_scale) : Q := band_padding s.
Definition paddingInner (s : band_scale) : Q := math_min 1 (band_padding s).
Definition band_n (s : band_scale) : Z := Z.of_nat (length (band_domain s)).

Definition band_step (s : band_scale) : Z :=
  Qfloor (inject_Z (band_hi s - band_lo s)
          / math_max 1 (inject_Z (band_n s) - paddingInner s
                    + paddingOuter s * 2))%Q.

Definition band_start (s : band_scale) : Z :=
  js_round (inject_Z (band_lo s)
            + (inject_Z (band_hi s - band_lo s)
               - inject_Z (band_step s)
                 * (inject_Z (band_n s) - paddingInner s)) * (1 # 2))%Q.

Definition bandwidth (s : band_scale) : Z :=
  js_round (inject_Z (band_step s) * (1 - paddingInner s))%Q.

Definition band_values (s : band_scale) : list Z :=
  let values :=
    (λ i : nat, band_start s + band_step s * Z.of_nat i)
      <$> seq 0 (length (band_domain s)) in
  if band_reverse s then reverse values else values.

(** Calling the scale: the position of a key of the domain, [undefined]
    for any other key. *)
Definition band_call (s : band_scale) (key : string) : option Z :=
  i ← indexOf (band_domain s) key; band_values s !! i.

(** A linear scale as [scaleLinear().domain([0, yMax]).rangeRound(..)]
    leaves it, and whether [nice()] was called.  It is never evaluated
    here. *)
Record linear_scale : Type := mkLinear {
  lin_domain : Z * option jsnum;
  lin_range : Z * Z;
  lin_nice : bool;
}.

Inductive scale : Type :=
  | BandScale (b : band_scale)
  | LinearScale (l : linear_scale).

(** An ordinal scale with the implicit domain: an unknown key is appended
    to the domain, and every key reads the range cyclically. *)
Record ordinal_scale : Type := mkOrdinal {
  ord_domain : list string;
  ord_range : list string;
}.

Definition ordinal_pick (range : list string) (i : nat) : option string :=
  match range with
  | [] => None
  | _ :: _ => range !! (i mod length range)%nat
  end.

Definition ordinal_call (s : ordinal_scale) (d : string)
  : option string * ordinal_scale :=
  match indexOf (ord_domain s) d with
  | Some i => (ordinal_pick (ord_range s) i, s)
  | None =>
      (ordinal_pick (ord_range s) (length (ord_domain s)),
       mkOrdinal (ord_domain s ++ [d]) (ord_range s))
  end.

(** A colour map: group key to colour, [undefined] when the palette is
    empty. *)
Abbreviation ColorMap := (gmap string (option string)).

(** The map [buildScales] derives when none is set: for every name of the
    domain and every row of that name, [memo[group] = colorScale(group)]. *)
Definition derive_step (item : string)
    (acc : ColorMap * ordinal_scale) (d : Row) : ColorMap * ordinal_scale :=
  if decide (name d = item) then
    let '(c, s) := ordinal_call acc.2 (group d) in
    (js_set (group d) c acc.1, s)
  else acc.

Definition derive_color_map (data : list Row) (colorScale : ordinal_scale)
  : ColorMap * ordinal_scale :=
  fold_left (λ acc item, fold_left (derive_step item) data acc)
            (ord_domain colorScale) (∅, colorScale).

(** ** The chart *)

Record Margin : Type := mkMargin {
  top : Z;
  right : Z;
  bottom : Z;
  left : Z;
}.

(** The options of the closure: those that the accessors store, and the
    delay step, which is set once, to 20, and has no accessor. *)
Record Config : Type := mkConfig {
  margin : Margin;
  width : Z;
  height : Z;
  isLoading : bool;
  isHorizontal : bool;
  colorSchema : list string;
  animationDelayStep : Z;
  labels : Labels;
  betweenBarsPadding : Q;
  betweenGroupsPadding : Q;
}.

(** The variables of the closure that the pipeline reads and writes: the
    options, the colour map (an option and a cache at once), and what a
    render computes.  [chartWidth] and [chartHeight] are declared without a
    value and are assigned before they are first read. *)
Record Chart : Type := mkChart {
  config : Config;
  nameToColorMap : option ColorMap;
  chartWidth : Z;
  chartHeight : Z;
  data : list Row;
  groups : list string;
  transformedData : list Layer;
  layers : list Layer;
  xScale : option scale;
  xScale2 : option band_scale;
  yScale : option scale;
  yScale2 : option band_scale;
  colorScale : option ordinal_scale;
  animationDelays : list Z;
}.

(** The closure as [module()] creates it; the default palette is imported
    from the colour helper. *)
Definition default_config (britecharts_palette : list string) : Config :=
  {| margin := mkMargin 40 30 60 70;
     width := 960; height := 500;
     isLoading := false; isHorizontal := false;
     colorSchema := britecharts_palette;
     animationDelayStep := 20;
     labels := default_labels;
     betweenBarsPadding := (1 # 10)%Q;
     betweenGroupsPadding := (1 # 10)%Q |}.

Definition new_chart (cfg : Config) : Chart :=
  {| config := cfg; nameToColorMap := None;
     chartWidth := 0; chartHeight := 0;
     data := []; groups := []; transformedData := []; layers := [];
     xScale := None; xScale2 := None; yScale := None; yScale2 := None;
     colorScale := None; animationDelays := [] |}.

(** *** The render pipeline *)

(** The head of [exports]: the drawable area and the data. *)
Definition bind_data (_data : list Row) (c : Chart) : Chart :=
  {| config := config c; nameToColorMap := nameToColorMap c;
     chartWidth := width (config c) - left (margin (config c))
                   - right (margin (config c));
     chartHeight := height (config c) - top (margin (config c))
                    - bottom (margin (config c));
     data := _data;
     groups := groups c; transformedData := transformedData c;
     layers := layers c;
     xScale := xScale c; xScale2 := xScale2 c;
     yScale := yScale c; yScale2 := yScale2 c;
     colorScale := colorScale c; animationDelays := animationDelays c |}.

Definition prepareData (c : Chart) : Chart :=
  {| config := config c; nameToColorMap := nameToColorMap c;
     chartWidth := chartWidth c; chartHeight := chartHeight c;
     data := data c;
     groups := prepare_groups (data c);
     transformedData := prepare_transformed (labels (config c)) (data c);
     layers := layers c;
     xScale := xScale c; xScale2 := xScale2 c;
     yScale := yScale c; yScale2 := yScale2 c;
     colorScale := colorScale c; animationDelays := animationDelays c |}.

(** The positional scales of [buildScales], by orientation. *)
Definition horizontal_yScale (c : Chart) : band_scale :=
  scaleBand (getName <$> data c) (chartHeight c) 0
            (betweenGroupsPadding (config c)).
Definition horizontal_yScale2 (c : Chart) : band_scale :=
  scaleBand (getGroup <$> data c) (bandwidth (horizontal_yScale c)) 0
            (betweenBarsPadding (config c)).
Definition vertical_xScale (c : Chart) : band_scale :=
  scaleBand (getName <$> data c) 0 (chartWidth c)
            (betweenGroupsPadding (config c)).
Definition vertical_xScale2 (c : Chart) : band_scale :=
  scaleBand (getGroup <$> data c) 0 (bandwidth (vertical_xScale c))
            (betweenGroupsPadding (config c)).

(** The tail of [buildScales]: the colour scale, and the colour map, kept
    when there is one ([nameToColorMap || ...]) and derived otherwise. *)
Definition build_colors (c : Chart) : option ColorMap * ordinal_scale :=
  let colorScale := mkOrdinal (ordinal_domain (getGroup <$> data c))
                              (colorSchema (config c)) in
  match nameToColorMap c with
  | Some m => (Some m, colorScale)
  | None =>
      let '(m, s) :=
        derive_color_map (data c)
          (mkOrdinal (ordinal_domain (getName <$> data c))
                     (ord_range colorScale)) in
      (Some m, s)
  end.

Definition buildScales (c : Chart) : Chart :=
  let yMax := getYMax (data c) in
  let colors := build_colors c in
  if isHorizontal (config c) then
    {| config := config c; nameToColorMap := colors.1;
       chartWidth := chartWidth c; chartHeight := chartHeight c;
       data := data c; groups := groups c;
       transformedData := transformedData c; layers := layers c;
       xScale := Some (LinearScale
                         (mkLinear (0, yMax) (0, chartWidth c - 1) false));
       xScale2 := xScale2 c;
       yScale := Some (BandScale (horizontal_yScale c));
       yScale2 := Some (horizontal_yScale2 c);
       colorScale := Some colors.2; animationDelays := animationDelays c |}
  else
    {| config := config c; nameToColorMap := colors.1;
       chartWidth := chartWidth c; chartHeight := chartHeight c;
       data := data c; groups := groups c;
       transformedData := transformedData c; layers := layers c;
       xScale := Some (BandScale (vertical_xScale c));
       xScale2 := Some (vertical_xScale2 c);
       yScale := Some (LinearScale
                         (mkLinear (0, yMax) (chartHeight c, 0) true));
       yScale2 := yScale2 c;
       colorScale := Some colors.2; animationDelays := animationDelays c |}.

Definition buildLayers_step (c : Chart) : Chart :=
  {| config := config c; nameToColorMap := nameToColorMap c;
     chartWidth := chartWidth c; chartHeight := chartHeight c;
     data := data c; groups := groups c;
     transformedData := transformedData c;
     layers := buildLayers (groups c) (transformedData c);
     xScale := xScale c; xScale2 := xScale2 c;
     yScale := yScale c; yScale2 := yScale2 c;
     colorScale := colorScale c; animationDelays := animationDelays c |}.

(** The delay table of [drawGroupedBar]. *)
Definition delay_table (step : Z) (layers : list Layer) : list Z :=
  d3_range step ((Z.of_nat (length layers) + 1) * step) step.

Definition drawGroupedBar (c : Chart) : Chart :=
  {| config := config c; nameToColorMap := nameToColorMap c;
     chartWidth := chartWidth c; chartHeight := chartHeight c;
     data := data c; groups := groups c;
     transformedData := transformedData c; layers := layers c;
     xScale := xScale c; xScale2 := xScale2 c;
     yScale := yScale c; yScale2 := yScale2 c;
     colorScale := colorScale c;
     animationDelays :=
       delay_table (animationDelayStep (config c)) (layers c) |}.

(** The body of [exports] for one element of the selection, at the rows
    [_data] that its call of [cleanData] has returned: see [exports]
    below for the call itself. *)
Definition render (_data : list Row) (c : Chart) : Chart :=
  let c := bind_data _data c in
  if isLoading (config c) then c
  else drawGroupedBar (buildLayers_step (buildScales (prepareData c))).

(** *** The hit-testers *)

(** What a call does: it returns, or it throws a [TypeError]. *)
Inductive outcome (A : Type) : Type :=
  | Return (a : A)
  | Throw.
Arguments Return {A} a.
Arguments Throw {A}.

(** The row handed to the listeners: the row found, on which the tester
    has set [values] and [key]. *)
Record Hit : Type := mkHit {
  hit_row : Row;
  hit_values : list Row;
  hit_key : string;
}.

(** [data.values], which must be an array for [find] to exist. *)
Definition layer_values (data : Layer) : option (list Row) :=
  match data !! "values" with
  | Some (PRows rs) => Some rs
  | _ => None
  end.

(** [layers.forEach(...)] with the callback of the hit-testers. *)
Fixpoint scan_layers (accept : Row → bool) (layers : list Layer)
    (nearest : list Hit) : outcome (list Hit) :=
  match layers with
  | [] => Return nearest
  | data :: rest =>
      match layer_values data with
      | None => Throw
      | Some values =>
          match js_find accept values with
          | Some found =>
              scan_layers accept rest
                (nearest ++ [mkHit found values (name found)])
          | None => scan_layers accept rest nearest
          end
      end
  end.

(** [nearest.length ? nearest[0] : undefined]. *)
Definition first_or_undefined (r : outcome (list Hit)) : outcome (option Hit) :=
  match r with
  | Return nearest => Return (head nearest)
  | Throw => Throw
  end.

(** The test of [getNearestDataPoint]; [Math.abs] of a comparison is 1 or
    0, so each factor is the comparison itself. *)
Definition accept_x (lb : Labels) (m : Margin) (xScale xScale2 : band_scale)
    (mouseX : Z) (d2 : Row) : bool :=
  let adjustedMouseX := Num (mouseX - left m) in
  let epsilon := Num (bandwidth xScale2) in
  js_ge adjustedMouseX
        (js_add (of_undef (band_call xScale (at_nameLabel lb d2)))
                (of_undef (band_call xScale2 (at_groupLabel lb d2))))
  && js_le (js_sub (js_sub adjustedMouseX
                           (of_undef (band_call xScale2 (at_groupLabel lb d2))))
                   (of_undef (band_call xScale (at_nameLabel lb d2))))
           epsilon.

Definition getNearestDataPoint (lb : Labels) (m : Margin)
    (xScale xScale2 : band_scale) (layers : list Layer) (mouseX : Z)
  : outcome (option Hit) :=
  first_or_undefined
    (scan_layers (accept_x lb m xScale xScale2 mouseX) layers []).

(** The test of [getNearestDataPoint2], where [d2[nameLabel]] is
    [d2.name], see [at_nameLabel]. *)
Definition accept_y (m : Margin) (yScale : band_scale) (mouseY : Z)
    (d2 : Row) : bool :=
  let adjustedMouseY := Num (mouseY - bottom m) in
  let epsilon := Num (bandwidth yScale) in
  js_ge adjustedMouseY (of_undef (band_call yScale (name d2)))
  && js_le (js_sub adjustedMouseY (of_undef (band_call yScale (name d2))))
           (js_mul epsilon (Num 2)).

Definition getNearestDataPoint2 (m : Margin) (yScale : band_scale)
    (layers : list Layer) (mouseY : Z) : outcome (option Hit) :=
  first_or_undefined (scan_layers (accept_y m yScale mouseY) layers []).

(** *** The accessors *)

Definition with_config (cfg : Config) (c : Chart) : Chart :=
  {| config := cfg; nameToColorMap := nameToColorMap c;
     chartWidth := chartWidth c; chartHeight := chartHeight c;
     data := data c; groups := groups c;
     transformedData := transformedData c; layers := layers c;
     xScale := xScale c; xScale2 := xScale2 c;
     yScale := yScale c; yScale2 := yScale2 c;
     colorScale := colorScale c; animationDelays := animationDelays c |}.

(** [exports.colorMap(_x)]: [null] or a map. *)
Definition exports_colorMap (_x : option ColorMap) (c : Chart) : Chart :=
  {| config := config c; nameToColorMap := _x;
     chartWidth := chartWidth c; chartHeight := chartHeight c;
     data := data c; groups := groups c;
     transformedData := transformedData c; layers := layers c;
     xScale := xScale c; xScale2 := xScale2 c;
     yScale := yScale c; yScale2 := yScale2 c;
     colorScale := colorScale c; animationDelays := animationDelays c |}.

(** [{...margin, ..._x}], read side by side: a side that [_x] owns comes
    from [_x], any other from the margin in place. *)
Definition spread_margin (m : Margin) (_x : gmap string Z) : Margin :=
  {| top := default (top m) (_x !! "top");
     right := default (right m) (_x !! "right");
     bottom := default (bottom m) (_x !! "bottom");
     left := default (left m) (_x !! "left") |}.

Definition set_margin (m : Margin) (cfg : Config) : Config :=
  {| margin := m; width := width cfg; height := height cfg;
     isLoading := isLoading cfg; isHorizontal := isHorizontal cfg;
     colorSchema := colorSchema cfg;
     animationDelayStep := animationDelayStep cfg;
     labels := labels cfg;
     betweenBarsPadding := betweenBarsPadding cfg;
     betweenGroupsPadding := betweenGroupsPadding cfg |}.

(** [exports.margin(_x)]. *)
Definition exports_margin (_x : gmap string Z) (c : Chart) : Chart :=
  with_config (set_margin (spread_margin (margin (config c)) _x) (config c)) c.

Definition set_isHorizontal (b : bool) (cfg : Config) : Config :=
  {| margin := margin cfg; width := width cfg; height := height cfg;
     isLoading := isLoading cfg; isHorizontal := b;
     colorSchema := colorSchema cfg;
     animationDelayStep := animationDelayStep cfg;
     labels := labels cfg;
     betweenBarsPadding := betweenBarsPadding cfg;
     betweenGroupsPadding := betweenGroupsPadding cfg |}.

Definition set_isLoading (b : bool) (cfg : Config) : Config :=
  {| margin := margin cfg; width := width cfg; height := height cfg;
     isLoading := b; isHorizontal := isHorizontal cfg;
     colorSchema := colorSchema cfg;
     animationDelayStep := animationDelayStep cfg;
     labels := labels cfg;
     betweenBarsPadding := betweenBarsPadding cfg;
     betweenGroupsPadding := betweenGroupsPadding cfg |}.

Definition set_betweenBarsPadding (p : Q) (cfg : Config) : Config :=
  {| margin := margin cfg; width := width cfg; height := height cfg;
     isLoading := isLoading cfg; isHorizontal := isHorizontal cfg;
     colorSchema := colorSchema cfg;
     animationDelayStep := animationDelayStep cfg;
     labels := labels cfg;
     betweenBarsPadding := p;
     betweenGroupsPadding := betweenGroupsPadding cfg |}.

Definition set_betweenGroupsPadding (p : Q) (cfg : Config) : Config :=
  {| margin := margin cfg; width := width cfg; height := height cfg;
     isLoading := isLoading cfg; isHorizontal := isHorizontal cfg;
     colorSchema := colorSchema cfg;
     animationDelayStep := animationDelayStep cfg;
     labels := labels cfg;
     betweenBarsPadding := betweenBarsPadding cfg;
     betweenGroupsPadding := p |}.

(** [exports.nameLabel], [exports.groupLabel] and [exports.valueLabel]. *)
Definition set_labels (lb : Labels) (cfg : Config) : Config :=
  {| margin := margin cfg; width := width cfg; height := height cfg;
     isLoading := isLoading cfg; isHorizontal := isHorizontal cfg;
     colorSchema := colorSchema cfg;
     animationDelayStep := animationDelayStep cfg;
     labels := lb;
     betweenBarsPadding := betweenBarsPadding cfg;
     betweenGroupsPadding := betweenGroupsPadding cfg |}.

Definition set_nameLabel (_x : string) (cfg : Config) : Config :=
  set_labels (mkLabels _x (valueLabel (labels cfg)) (groupLabel (labels cfg)))
             cfg.

Definition set_groupLabel (_x : string) (cfg : Config) : Config :=
  set_labels (mkLabels (nameLabel (labels cfg)) (valueLabel (labels cfg)) _x)
             cfg.

Definition set_valueLabel (_x : string) (cfg : Config) : Config :=
  set_labels (mkLabels (nameLabel (labels cfg)) _x (groupLabel (labels cfg)))
             cfg.

(** What a caller can do to a chart: render it (at the rows that
    [cleanData] returns), set the colour map, or call any accessor that
    stores an option. *)
Inductive call : Type :=
  | CallRender (_data : list Row)
  | CallColorMap (_x : option ColorMap)
  | CallAccessor (store : Config → Config).

Definition run_call (c : Chart) (a : call) : Chart :=
  match a with
  | CallRender _data => render _data c
  | CallColorMap _x => exports_colorMap _x c
  | CallAccessor store => with_config (store (config c)) c
  end.

Definition run_calls (c : Chart) (calls : list call) : Chart :=
  fold_left run_call calls c.

(** ** The normaliser *)

(** What reading a field of a raw input object gives: a primitive value
    other than a symbol or a big integer (on which unary plus throws), or,
    for a name that the object does not own, the member of
    [Object.prototype] under this name. *)
Inductive jsval : Type :=
  | VUndef
  | VNull
  | VBool (b : bool)
  | VNum (n : jsnum)
  | VStr (s : string)
  | VInherited (k : string).

#[global] Instance jsval_eq_dec : EqDecision jsval.
Proof. solve_decision. Defined.

Abbreviation RawRow := (gmap string jsval).

(** [d[k]]: an own property, else the inherited member, else
    [undefined]. *)
Definition js_read (d : RawRow) (k : string) : jsval :=
  match d !! k with
  | Some v => v
  | None => if decide (k ∈ object_prototype) then VInherited k else VUndef
  end.


Section normaliser.
(** The numeric value of a string (ECMAScript's StringToNumber) is left
    open: nothing below depends on how a string is read. *)
Variable StringToNumber : string → jsnum.

(** Unary plus; a function and the prototype object are not numbers. *)
Definition ToNumber (v : jsval) : jsnum :=
  match v with
  | VUndef => NaN
  | VNull => Num 0
  | VBool b => Num (if b then 1 else 0)
  | VNum n => n
  | VStr s => StringToNumber s
  | VInherited _ => NaN
  end.

(** The body of the reducer of [cleanData]: four assignments in a row, each
    reading the object as the earlier ones left it.  The rows are distinct
    objects; a sequence that lists one object twice is outside the
    model. *)
Definition cleanRow (lb : Labels) (d : RawRow) : RawRow :=
  let d := <["value" := VNum (ToNumber (js_read d (valueLabel lb)))]> d in
  let d := <["group" := js_read d (groupLabel lb)]> d in
  let d := <["topicName" := js_read d (groupLabel lb)]> d in
  <["name" := js_read d (nameLabel lb)]> d.

(** [cleanData] on an array of objects. *)
Definition cleanData (lb : Labels) (originalData : list RawRow)
  : list RawRow :=
  fold_left (λ acc d, acc ++ [cleanRow lb d]) originalData [].

End normaliser.

(** A normalised row as the object it is, and back. *)
Definition row_object (d : Row) : RawRow :=
  {[ "name" := VStr (name d); "group" := VStr (group d);
     "value" := VNum (value d) ]}.

Definition as_row (o : RawRow) : option Row :=
  match js_read o "name", js_read o "group", js_read o "value" with
  | VStr n, VStr g, VNum v => Some (mkRow n g v)
  | _, _, _ => None
  end.

(** The rows of the documented type that a sequence of objects is, if
    every one of them is of this type. *)
Definition as_rows (data : list RawRow) : option (list Row) :=
  mapM as_row data.

Section render_call.
Variable StringToNumber : string → jsnum.

(** [exports], for one element of the selection: [data = cleanData(_data)]
    and then the rest of the body.  There is no result in the model when
    a normalised row is not of the documented type.  [cleanData] rewrites
    the objects of [_data] in place: after the call, the array bound to
    the selection holds the objects that [cleanData] has returned. *)
Definition exports (_data : list RawRow) (c : Chart) : option Chart :=
  data ← as_rows (cleanData StringToNumber (labels (config c)) _data);
  Some (render data c).

(** What the array bound to the selection holds after the call. *)
Definition bound_after (_data : list RawRow) (c : Chart) : list RawRow :=
  cleanData StringToNumber (labels (config c)) _data.
End render_call.

(** ** The properties, in the words of the specification *)

(** The rows of a category, in input order. *)
Definition category_rows (data : list Row) (cat : string) : list Row :=
  filter (λ d, name d = cat) data.

(** The value the data give a category for a group: that of the last row
    of the category with this group, if there is one. *)
Definition group_value (data : list Row) (cat g : string) : option jsnum :=
  value <$> last (filter (λ d, group d = g) (category_rows data cat)).


(** What one value read by [permute] adds to a sum that passes over NaN. *)
Definition contribution (o : option rollup_val) : Z :=
  match rollup_number o with
  | Num v => v
  | NaN => 0
  end.

(** What a group counts for in the total that the code computes: nothing
    when the category lacks it, when its key is empty, or when its value is
    NaN. *)
Definition counted (g : string) (o : option jsnum) : Z :=
  match o with
  | Some (Num v) => if str_truthy g then v else 0
  | _ => 0
  end.

Definition counted_total (data : list Row) (cat : string) : Z :=
  fold_left (λ acc g, acc + counted g (group_value data cat g))
            (first_seen (group <$> data)) 0.

(** The group keys that collide with a property of the layer object. *)
Definition reserved_key (g : string) : Prop :=
  g = "total"%string ∨ g = "values"%string ∨ g = "__proto__"%string.



(** Every value is exactly zero. *)
Definition all_zero (data : list Row) : Prop :=
  Forall (λ d, value d = Num 0) data.

(** [r] is the largest of the numbers among [vs], or [undefined] when there
    is none. *)
Definition true_max (vs : list jsnum) (r : option jsnum) : Prop :=
  match r with
  | Some (Num m) => Num m ∈ vs ∧ ∀ z, Num z ∈ vs → z ≤ m
  | Some NaN => False
  | None => ∀ v, v ∈ vs → v = NaN
  end.

(** A table that starts at [step] and grows by [step] from slot to slot. *)
Definition stepwise (step : Z) (delays : list Z) : Prop :=
  head delays = (if delays is [] then None else Some step)
  ∧ ∀ i a b, delays !! i = Some a → delays !! S i = Some b →
             a < b ∧ b - a = step.

(** The first row, layer by layer and row by row, that satisfies [P], with
    the rows of its layer; nothing when no row of any layer does. *)
Definition first_match (P : Row → Prop) (rowss : list (list Row))
    (r : option Hit) : Prop :=
  match r with
  | Some h =>
      ∃ before pre post after,
        rowss = before ++ (pre ++ hit_row h :: post) :: after
        ∧ Forall (Forall (λ d, ¬ P d)) before
        ∧ Forall (λ d, ¬ P d) pre
        ∧ P (hit_row h)
        ∧ hit_values h = pre ++ hit_row h :: post
        ∧ hit_key h = name (hit_row h)
  | None => Forall (Forall (λ d, ¬ P d)) rowss
  end.



(** The pointer, corrected by the bottom margin, is at or past the band of
    the category of the row and at most [tol] past it. *)
Definition in_category_band (m : Margin) (yScale : band_scale)
    (tol mouseY : Z) (d : Row) : Prop :=
  ∃ p,
    band_call yScale (name d) = Some p
    ∧ p ≤ mouseY - bottom m
    ∧ (mouseY - bottom m) - p ≤ tol.

(** ** Sample data *)

(** The end-to-end scenario of the specification. *)
Definition scenario : list Row :=
  [ mkRow "A" "X" (Num 0); mkRow "A" "Y" (Num 0); mkRow "B" "X" (Num 10) ].


(** A group that is called like the total of the layer. *)
Definition colliding_rows : list Row :=
  [ mkRow "A" "total" (Num 5); mkRow "A" "X" (Num 3) ].

(** Three bars, one per category. *)
Definition three_bars : list Row :=
  [ mkRow "A" "X" (Num 1); mkRow "B" "X" (Num 2); mkRow "C" "X" (Num 3) ].

(** Rows that differ in their values only. *)
Definition rows_of_values (vs : list Z) : list Row :=
  (λ v, mkRow "A" "X" (Num v)) <$> vs.

Definition sample_palette : list string :=
  [ "#6aedc7"; "#39c2c9"; "#ffce00"; "#ffa71a"; "#f866b9"; "#998ce3" ].

Definition sample_chart : Chart := new_chart (default_config sample_palette).

Definition sample_horizontal_chart : Chart :=
  with_config (set_isHorizontal true (config sample_chart)) sample_chart.

(** The category scale of the scenario drawn horizontally at the default
    size: the drawable height is 500 - 40 - 60. *)
Definition sample_yScale : band_scale :=
  scaleBand ["A"; "A"; "B"] 400 0 (1 # 10).

(** The row of the scenario that a pointer at y = 260 is handed. *)
Definition sample_hit : Hit :=
  mkHit (mkRow "B" "X" (Num 10)) [ mkRow "B" "X" (Num 10) ] "B".

(** A raw row whose value is a string that is no numeral, and a reading
    of strings under which it is not a number. *)
Definition raw_sample : RawRow :=
  {[ "name" := VStr "A"; "group" := VStr "X"; "value" := VStr "abc" ]}.

Definition no_numeral (s : string) : jsnum := NaN.

(** A row under other field names: the category under [date], the group
    under [name].  The chart that reads these names, the row that the
    normaliser makes of it, and the only bar of its render, which starts
    at 79 + 64 in the drawable area. *)
Definition dated_labels : Labels := mkLabels "date" "value" "name".

Definition raw_dated : RawRow :=
  {[ "name" := VStr "Direct"; "date" := VStr "2011-01";
     "value" := VNum (Num 5) ]}.

Definition dated_row : Row := mkRow "2011-01" "Direct" (Num 5).

Definition dated_chart : Chart :=
  with_config (set_labels dated_labels (config sample_chart)) sample_chart.




(** A map that the caller sets, and a margin argument with one side. *)
Definition sample_override : ColorMap := {[ "X" := Some "red" ]}.

Definition left_only : gmap string Z := {[ "left" := 10 ]}.

(** The default chart with the padding between bars set to one half. *)
Definition wide_bars_chart : Chart :=
  bind_data scenario
    (with_config (set_betweenBarsPadding (1 # 2) (config sample_chart))
                 sample_chart).

(** ** Further properties, in words *)

(** The sum of the values of some rows, a row counting for 0 when its
    group key is empty or its value NaN. *)
Definition row_total (rows : list Row) : Z :=
  foldr (λ d acc, counted (group d) (Some (value d)) + acc) 0 rows.

(** The field names under which normalising again is harmless: each is the
    canonical name of its role, or none of the four names that the
    normaliser writes. *)
Definition written_field (k : string) : Prop :=
  k = "value"%string ∨ k = "group"%string
  ∨ k = "topicName"%string ∨ k = "name"%string.

Definition settled_labels (lb : Labels) : Prop :=
  (valueLabel lb = "value"%string ∨ ¬ written_field (valueLabel lb))
  ∧ (groupLabel lb = "group"%string ∨ ¬ written_field (groupLabel lb))
  ∧ (nameLabel lb = "name"%string ∨ ¬ written_field (nameLabel lb)).

(** What a colour map holds while it is derived: keys that are group keys
    of the data, each with a colour of the palette, or with [undefined]
    when the palette is empty. *)
Definition colours_of (palette : list string) (data : list Row)
    (m : ColorMap) : Prop :=
  ∀ g o, m !! g = Some o →
    g ∈ group <$> data ∧ g ≠ "__proto__"%string
    ∧ match o with Some col => col ∈ palette | None => palette = [] end.

(** * Lemmas *)

(** ** Arrays: the first-seen order, which is that of [uniq] *)

Section array_facts.
Context {A : Type} `{EqDecision A}.
Implicit Types (l p seen : list A) (x y : A).

Lemma first_seen_from_ext seen seen' l :
  (∀ x, x ∈ seen ↔ x ∈ seen') →
  first_seen_from seen l = first_seen_from seen' l.
Proof.
  revert seen seen'. induction l as [|x l IH]; intros seen seen' Hs; [done|].
  simpl. destruct (decide (x ∈ seen)) as [Hx|Hx],
    (decide (x ∈ seen')) as [Hx'|Hx']; try (by apply IH); try (exfalso; naive_solver).
  f_equal. apply IH. intros y. rewrite !elem_of_cons. naive_solver.
Qed.

Lemma elem_of_first_seen_from seen l y :
  y ∈ first_seen_from seen l ↔ y ∈ l ∧ y ∉ seen.
Proof.
  revert seen. induction l as [|x l IH]; intros seen; simpl.
  - rewrite elem_of_nil. naive_solver.
  - destruct (decide (x ∈ seen)).
    + rewrite IH, elem_of_cons. naive_solver.
    + rewrite elem_of_cons, IH, !elem_of_cons.
      destruct (decide (y = x)); naive_solver.
Qed.

Lemma NoDup_first_seen_from seen l : NoDup (first_seen_from seen l).
Proof.
  revert seen. induction l as [|x l IH]; intros seen; simpl; [constructor|].
  destruct (decide (x ∈ seen)); [done|].
  constructor; [|done].
  rewrite elem_of_first_seen_from, elem_of_cons. naive_solver.
Qed.

Lemma first_seen_from_snoc seen l y :
  first_seen_from seen (l ++ [y])
  = first_seen_from seen l
    ++ (if decide (y ∈ seen ∨ y ∈ l) then [] else [y]).
Proof.
  revert seen. induction l as [|x l IH]; intros seen; simpl.
  - destruct (decide (y ∈ seen)), (decide (y ∈ seen ∨ y ∈ [])) as [H'|H'];
      try done.
    + exfalso. naive_solver.
    + destruct H' as [?|H']; [done|by apply elem_of_nil in H'].
  - destruct (decide (x ∈ seen)).
    + rewrite IH. f_equal.
      destruct (decide (y ∈ seen ∨ y ∈ l)), (decide (y ∈ seen ∨ y ∈ x :: l)) as [H'|H'];
        try done; exfalso.
      * apply H'. rewrite elem_of_cons. naive_solver.
      * rewrite elem_of_cons in H'. naive_solver.
    + rewrite IH. simpl. f_equal. f_equal.
      destruct (decide (y ∈ x :: seen ∨ y ∈ l)) as [H1|H1],
        (decide (y ∈ seen ∨ y ∈ x :: l)) as [H2|H2]; try done; exfalso.
      * apply H2. rewrite !elem_of_cons in *. naive_solver.
      * apply H1. rewrite !elem_of_cons in *. naive_solver.
Qed.

Lemma elem_of_first_seen l y : y ∈ first_seen l ↔ y ∈ l.
Proof.
  unfold first_seen. rewrite elem_of_first_seen_from, elem_of_nil. naive_solver.
Qed.

Lemma first_seen_snoc l y :
  first_seen (l ++ [y])
  = first_seen l ++ (if decide (y ∈ l) then [] else [y]).
Proof.
  unfold first_seen. rewrite first_seen_from_snoc. f_equal.
  destruct (decide (y ∈ [] ∨ y ∈ l)) as [H1|H1], (decide (y ∈ l)) as [H2|H2];
    try done; exfalso.
  - destruct H1 as [H1|?]; [by apply elem_of_nil in H1|done].
  - naive_solver.
Qed.
End array_facts.

Lemma indexOf_app_notin (p l : list string) (x : string) :
  x ∉ p → indexOf (p ++ l) x = (λ i, length p + i)%nat <$> indexOf l x.
Proof.
  induction p as [|y p IH]; intros Hx; simpl.
  - by destruct (indexOf l x).
  - apply not_elem_of_cons in Hx as [Hxy Hx].
    destruct (decide (x = y)); [done|].
    rewrite IH by done. by destruct (indexOf l x).
Qed.

Lemma indexOf_app_in (p l : list string) (x : string) :
  x ∈ p → ∃ i, indexOf (p ++ l) x = Some i ∧ (i < length p)%nat.
Proof.
  induction p as [|y p IH]; intros Hx; [by apply elem_of_nil in Hx|].
  simpl. destruct (decide (x = y)); [exists 0%nat; split; [done|lia]|].
  apply elem_of_cons in Hx as [?|Hx]; [done|].
  destruct (IH Hx) as (i & -> & ?). exists (S i). split; [done|lia].
Qed.

Lemma indexOf_head (l : list string) (x : string) : indexOf (x :: l) x = Some 0%nat.
Proof. simpl. by destruct (decide (x = x)). Qed.

Lemma uniq_from_first_seen (p seen l : list string) :
  (∀ x, x ∈ seen ↔ x ∈ p) →
  filter_from (λ elem pos, bool_decide (indexOf (p ++ l) elem = Some pos))
              (length p) l
  = first_seen_from seen l.
Proof.
  revert p seen. induction l as [|x l IH]; intros p seen Hs; [done|].
  simpl. specialize (IH (p ++ [x])).
  rewrite <- (assoc_L (++)) in IH. simpl in IH.
  rewrite length_app in IH. simpl in IH.
  replace (length p + 1)%nat with (S (length p)) in IH by lia.
  destruct (decide (x ∈ seen)) as [Hx|Hx].
  - destruct (indexOf_app_in p (x :: l) x) as (i & Hi & Hlt); [by apply Hs|].
    rewrite Hi, bool_decide_eq_false_2 by (intros [= ->]; lia).
    apply IH. intros y. rewrite elem_of_app, list_elem_of_singleton. naive_solver.
  - rewrite indexOf_app_notin, indexOf_head by (by rewrite <- Hs).
    simpl. rewrite Nat.add_0_r, bool_decide_eq_true_2 by done.
    f_equal. apply IH. intros y.
    rewrite elem_of_app, list_elem_of_singleton, elem_of_cons. naive_solver.
Qed.

Lemma uniq_first_seen (l : list string) : uniq l = first_seen l.
Proof. apply (uniq_from_first_seen [] [] l). done. Qed.

(** ** The grouping step *)

Lemma filter_none {A} (P : A → Prop) `{∀ x, Decision (P x)} (l : list A) :
  (∀ x, x ∈ l → ¬ P x) → filter P l = [].
Proof.
  induction l as [|x l IH]; intros Hl; [done|].
  rewrite filter_cons, decide_False by (apply Hl; left).
  apply IH. intros y Hy. apply Hl. by right.
Qed.

Lemma filter_same {A} (P Q : A → Prop) `{∀ x, Decision (P x)}
    `{∀ x, Decision (Q x)} (l : list A) :
  (∀ x, x ∈ l → P x ↔ Q x) → filter P l = filter Q l.
Proof.
  induction l as [|x l IH]; intros Hl; [done|].
  rewrite !filter_cons.
  destruct (decide (P x)) as [HP|HP], (decide (Q x)) as [HQ|HQ].
  - f_equal. apply IH. intros y Hy. apply Hl. by right.
  - exfalso. apply HQ, Hl; [left|done].
  - exfalso. apply HP, Hl; [left|done].
  - apply IH. intros y Hy. apply Hl. by right.
Qed.


Lemma nest_push_known (f : string → list Row) k x ks :
  NoDup ks → k ∈ ks →
  nest_push k x ((λ k', (k', f k')) <$> ks)
  = (λ k', (k', if decide (k' = k) then f k' ++ [x] else f k')) <$> ks.
Proof.
  induction ks as [|k' ks IH]; intros Hnd Hk; [by apply elem_of_nil in Hk|].
  apply NoDup_cons in Hnd as [Hk' Hnd]. simpl.
  destruct (decide (k = k')) as [->|Hne].
  - rewrite decide_True by done. f_equal.
    apply list_fmap_ext. intros i k'' Hi.
    rewrite decide_False; [done|].
    intros ->. apply Hk'. by eapply list_elem_of_lookup_2.
  - rewrite decide_False by done. f_equal.
    apply elem_of_cons in Hk as [?|Hk]; [done|]. by apply IH.
Qed.

Lemma nest_push_fresh (f : string → list Row) k x ks :
  k ∉ ks →
  nest_push k x ((λ k', (k', f k')) <$> ks)
  = ((λ k', (k', f k')) <$> ks) ++ [(k, [x])].
Proof.
  induction ks as [|k' ks IH]; intros Hk; [done|].
  apply not_elem_of_cons in Hk as [Hne Hk]. simpl.
  rewrite decide_False by done. f_equal. by apply IH.
Qed.

(** The entries of [nest]: the distinct keys in first-seen order, each with
    its rows in input order. *)
Lemma nest_entries_spec (data : list Row) :
  nest_entries getName data
  = (λ cat, (cat, category_rows data cat)) <$> first_seen (name <$> data).
Proof.
  unfold nest_entries, category_rows, getName.
  induction data as [|x data IH] using rev_ind; [done|].
  rewrite fold_left_app. simpl. rewrite IH. clear IH.
  rewrite fmap_app. simpl. rewrite first_seen_snoc.
  destruct (decide (name x ∈ name <$> data)) as [Hin|Hin].
  - rewrite app_nil_r, nest_push_known;
      [|apply NoDup_first_seen_from|by apply elem_of_first_seen].
    apply list_fmap_ext. intros i cat Hi.
    rewrite filter_app, filter_cons, filter_nil.
    destruct (decide (cat = name x)) as [->|Hne].
    + by rewrite decide_True.
    + rewrite decide_False by done. by rewrite app_nil_r.
  - rewrite nest_push_fresh by (by rewrite elem_of_first_seen).
    rewrite fmap_app. simpl. f_equal.
    + apply list_fmap_ext. intros i cat Hi.
      rewrite filter_app, filter_cons, filter_nil.
      rewrite decide_False, app_nil_r; [done|].
      intros Heq. apply Hin. rewrite Heq.
      apply elem_of_first_seen. by eapply list_elem_of_lookup_2.
    + rewrite filter_app, filter_cons, filter_nil, decide_True by done.
      f_equal. f_equal.
      rewrite filter_none; [done|].
      intros d Hd Heq. apply Hin. rewrite <- Heq.
      by apply list_elem_of_fmap_2.
Qed.

Lemma d3_sum_contributions (values : list (option rollup_val)) :
  d3_sum values = Num (fold_left (λ sum value, sum + contribution value) values 0).
Proof.
  unfold d3_sum. f_equal. generalize 0.
  induction values as [|o values IH]; intros sum; [done|].
  simpl. rewrite IH. f_equal. unfold contribution.
  destruct (rollup_number o) as [v|]; [|lia].
  simpl. case_bool_decide; simpl; lia.
Qed.

Lemma js_set_lookup_ne {V} (k k' : string) (v : V) (o : gmap string V) :
  k ≠ k' → js_set k v o !! k' = o !! k'.
Proof.
  intros Hne. unfold js_set. case_decide; [done|]. by rewrite lookup_insert_ne.
Qed.

Lemma js_set_lookup_eq {V} (k : string) (v : V) (o : gmap string V) :
  k ≠ "__proto__"%string → js_set k v o !! k = Some v.
Proof.
  intros Hne. unfold js_set. rewrite decide_False by done.
  by rewrite lookup_insert_eq.
Qed.

Lemma js_set_lookup_proto {V} (k : string) (v : V) (o : gmap string V) :
  js_set k v o !! "__proto__"%string = o !! "__proto__"%string.
Proof.
  unfold js_set. case_decide; [done|]. by rewrite lookup_insert_ne.
Qed.

Lemma at_groupLabel_group (lb : Labels) (d : Row) :
  groupLabel lb ≠ "name"%string → at_groupLabel lb d = group d.
Proof. intros Hg. unfold at_groupLabel. by rewrite decide_False. Qed.


Lemma object_assign_lookup {V} (a b : gmap string V) (k : string) :
  k ≠ "__proto__"%string → object_assign a b !! k = (b ∪ a) !! k.
Proof. intros Hk. unfold object_assign. by rewrite lookup_delete_ne. Qed.

Lemma object_assign_proto {V} (a b : gmap string V) :
  object_assign a b !! "__proto__"%string = None.
Proof. unfold object_assign. by rewrite lookup_delete_eq. Qed.

Lemma rollup_loop_lookup (lb : Labels) (values : list Row) ret (g : string) :
  g ≠ "__proto__"%string →
  rollup_loop lb values ret !! g
  = if str_truthy g then
      match last (filter (λ d, at_groupLabel lb d = g) values) with
      | Some d => Some (RNum (value d))
      | None => ret !! g
      end
    else ret !! g.
Proof.
  intros Hg. revert ret. unfold rollup_loop.
  induction values as [|x values IH]; intros ret; simpl.
  - by destruct (str_truthy g).
  - rewrite IH, filter_cons. clear IH.
    destruct (decide (at_groupLabel lb x = g)) as [Hx|Hx].
    + rewrite last_cons. subst g.
      destruct (str_truthy (at_groupLabel lb x)); [|done].
      destruct (last (filter _ values)); [done|].
      by rewrite js_set_lookup_eq.
    + destruct (str_truthy g);
        [|by destruct (str_truthy (at_groupLabel lb x));
             rewrite ?js_set_lookup_ne].
      destruct (last (filter _ values)); [done|].
      destruct (str_truthy (at_groupLabel lb x)); by rewrite ?js_set_lookup_ne.
Qed.

Lemma rollup_loop_proto (lb : Labels) (values : list Row) ret :
  rollup_loop lb values ret !! "__proto__"%string = ret !! "__proto__"%string.
Proof.
  revert ret. unfold rollup_loop.
  induction values as [|x values IH]; intros ret; simpl; [done|].
  rewrite IH. destruct (str_truthy (at_groupLabel lb x)); [|done].
  apply js_set_lookup_proto.
Qed.

Lemma rollup_values (lb : Labels) (values : list Row) :
  rollup lb values !! "values"%string = Some (RRows values).
Proof. unfold rollup. by rewrite lookup_insert_eq. Qed.

Lemma rollup_lookup (lb : Labels) (values : list Row) (g : string) :
  g ≠ "values"%string →
  rollup lb values !! g = rollup_loop lb values ∅ !! g.
Proof. intros Hg. unfold rollup. by rewrite lookup_insert_ne. Qed.

(** A key under which no row of the category is filed is not a property of
    the rollup object, [values] apart. *)
Lemma rollup_lookup_absent (lb : Labels) (values : list Row) (g : string) :
  g ≠ "values"%string →
  (∀ d, d ∈ values → at_groupLabel lb d ≠ g) →
  rollup lb values !! g = None.
Proof.
  intros Hv Hg. rewrite rollup_lookup by done.
  destruct (decide (g = "__proto__"%string)) as [->|Hp].
  - by rewrite rollup_loop_proto.
  - rewrite rollup_loop_lookup by done.
    rewrite filter_none by (intros d Hd; by apply Hg).
    simpl. by destruct (str_truthy g).
Qed.

(** A name that the rollup object does not own adds nothing to the sum,
    whether [Object.prototype] answers it or not. *)
Lemma contribution_absent (source : gmap string rollup_val) (g : string) :
  source !! g = None → contribution (rollup_get source g) = 0.
Proof.
  intros Hg. unfold rollup_get. rewrite Hg. by case_decide.
Qed.

Lemma rollup_get_own (source : gmap string rollup_val) (g : string) v :
  source !! g = Some v → rollup_get source g = Some v.
Proof. intros Hg. unfold rollup_get. by rewrite Hg. Qed.

(** What a key counts for in the total of a category none of whose rows is
    filed under a reserved key. *)
Lemma contribution_counted (lb : Labels) (values : list Row) (g : string) :
  values ≠ [] →
  (∀ d, d ∈ values → ¬ reserved_key (at_groupLabel lb d)) →
  contribution (rollup_get (rollup lb values) g)
  = counted g (value <$> last (filter (λ d, at_groupLabel lb d = g) values)).
Proof.
  intros Hne Hres.
  assert (reserved_key g → filter (λ d, at_groupLabel lb d = g) values = [])
    as Hnone.
  { intros Hg. apply filter_none. intros d Hd <-. by apply (Hres d). }
  destruct (decide (g = "values"%string)) as [->|Hv].
  { erewrite rollup_get_own by apply rollup_values.
    rewrite Hnone by (right; by left).
    destruct values; [done|]. done. }
  destruct (decide (g = "__proto__"%string)) as [->|Hp].
  { rewrite contribution_absent
      by (by rewrite rollup_lookup, rollup_loop_proto).
    by rewrite Hnone by (right; by right). }
  pose proof (rollup_loop_lookup lb values ∅ g Hp) as Hlook.
  rewrite lookup_empty in Hlook. rewrite <- rollup_lookup in Hlook by done.
  unfold counted.
  destruct (last (filter _ values)) as [d|]; simpl.
  - destruct (str_truthy g).
    + erewrite rollup_get_own by done. unfold contribution. simpl.
      by destruct (value d).
    + rewrite contribution_absent by done. by destruct (value d).
  - rewrite contribution_absent; [done|]. by destruct (str_truthy g).
Qed.

Lemma category_rows_name (data : list Row) cat d :
  d ∈ category_rows data cat ↔ d ∈ data ∧ name d = cat.
Proof. unfold category_rows. rewrite list_elem_of_filter. naive_solver. Qed.

Lemma category_rows_nonempty (data : list Row) cat :
  cat ∈ first_seen (name <$> data) → category_rows data cat ≠ [].
Proof.
  rewrite elem_of_first_seen, list_elem_of_fmap.
  intros (d & -> & Hd) Hnil.
  assert (d ∈ category_rows data (name d)) as Hin
    by (by apply category_rows_name).
  rewrite Hnil in Hin. by apply elem_of_nil in Hin.
Qed.

(** The transformed data, entry by entry. *)
Lemma prepare_transformed_spec (lb : Labels) (data : list Row) :
  prepare_transformed lb data
  = (λ cat, layer_of_entry lb (first_seen (group <$> data))
                           (cat, category_rows data cat))
      <$> first_seen (name <$> data).
Proof.
  unfold prepare_transformed, prepare_groups, getGroup.
  rewrite nest_entries_spec, uniq_first_seen, <- list_fmap_compose.
  done.
Qed.

Lemma layer_total (lb : Labels) (groups : list string) cat
    (values : list Row) :
  (∀ d, d ∈ values → at_groupLabel lb d ≠ "total"%string) →
  layer_of_entry lb groups (cat, values) !! "total"%string
  = Some (PNum (d3_sum (permute (rollup lb values) groups))).
Proof.
  intros Ht. unfold layer_of_entry. simpl.
  rewrite object_assign_lookup by done. rewrite lookup_union_r.
  - by rewrite lookup_insert_eq.
  - by rewrite lookup_fmap, rollup_lookup_absent.
Qed.

Lemma layer_key (lb : Labels) (groups : list string) cat (values : list Row) :
  (∀ d, d ∈ values → at_groupLabel lb d ≠ "key"%string) →
  layer_of_entry lb groups (cat, values) !! "key"%string = Some (PStr cat).
Proof.
  intros Ht. unfold layer_of_entry. simpl.
  rewrite object_assign_lookup by done. rewrite lookup_union_r.
  - rewrite lookup_insert_ne by done. by rewrite lookup_singleton_eq.
  - by rewrite lookup_fmap, rollup_lookup_absent.
Qed.

Lemma layer_rows (lb : Labels) (groups : list string) cat
    (values : list Row) :
  layer_of_entry lb groups (cat, values) !! "values"%string
  = Some (PRows values).
Proof.
  unfold layer_of_entry. simpl. rewrite object_assign_lookup by done.
  erewrite lookup_union_Some_l; [done|].
  by rewrite lookup_fmap, rollup_values.
Qed.

(** The sum that [prepareData] computes for a category: every group key
    counts for the value of the last row of the category that is filed
    under it. *)
Lemma total_filed (lb : Labels) (data : list Row) cat
    (groups : list string) :
  category_rows data cat ≠ [] →
  (∀ d, d ∈ data → name d = cat → ¬ reserved_key (at_groupLabel lb d)) →
  d3_sum (permute (rollup lb (category_rows data cat)) groups)
  = Num (fold_left
           (λ acc g,
              acc + counted g
                      (value <$> last (filter (λ d, at_groupLabel lb d = g)
                                              (category_rows data cat))))
           groups 0).
Proof.
  intros Hne Hres. rewrite d3_sum_contributions. f_equal.
  unfold permute. generalize 0.
  induction groups as [|g groups IH]; intros acc; [done|].
  simpl. rewrite IH. f_equal. f_equal.
  apply contribution_counted; [done|].
  intros d Hd. apply category_rows_name in Hd as [Hd Hn]. by apply Hres.
Qed.

Lemma fold_left_add_ext {A} (f g : A → Z) (l : list A) (acc : Z) :
  (∀ x, x ∈ l → f x = g x) →
  fold_left (λ acc x, acc + f x) l acc = fold_left (λ acc x, acc + g x) l acc.
Proof.
  revert acc. induction l as [|x l IH]; intros acc Hfg; [done|].
  simpl. rewrite (Hfg x) by left. apply IH. intros y Hy. apply Hfg. by right.
Qed.

(** With a group label other than "name" the rows are filed under their
    groups. *)
Lemma total_counted (lb : Labels) (data : list Row) cat
    (groups : list string) :
  groupLabel lb ≠ "name"%string →
  category_rows data cat ≠ [] →
  (∀ d, d ∈ data → name d = cat → ¬ reserved_key (group d)) →
  d3_sum (permute (rollup lb (category_rows data cat)) groups)
  = Num (fold_left (λ acc g, acc + counted g (group_value data cat g))
                   groups 0).
Proof.
  intros Hlb Hne Hres. rewrite total_filed; [|done|].
  - f_equal. apply fold_left_add_ext. intros g _. unfold group_value.
    do 3 f_equal. apply filter_same. intros d _.
    by rewrite at_groupLabel_group.
  - intros d Hd Hn. rewrite at_groupLabel_group by done. by apply Hres.
Qed.




Lemma length_first_seen `{Countable A} (l : list A) :
  length (first_seen l) = size (list_to_set l : gset A).
Proof.
  rewrite <- (size_list_to_set (C:=gset A) (first_seen l))
    by apply NoDup_first_seen_from.
  f_equal. apply set_eq. intros x.
  by rewrite !elem_of_list_to_set, elem_of_first_seen.
Qed.





(** ** Layers and groups *)

Lemma buildLayer_fold_lookup (groups : list string) (item ret : Layer) k :
  (ret !! k = None ∨ ret !! k = Some (js_get item k)) →
  let ret' := fold_left (λ ret key, js_set key (js_get item key) ret)
                        groups ret in
  ret' !! k = None ∨ ret' !! k = Some (js_get item k).
Proof.
  revert ret. induction groups as [|g groups IH]; intros ret Hret; [done|].
  simpl. apply IH.
  destruct (decide (g = k)) as [->|Hne].
  - unfold js_set. case_decide; [done|]. right. by rewrite lookup_insert_eq.
  - by rewrite js_set_lookup_ne.
Qed.

(** [buildLayers] keeps every property that a layer has. *)
Lemma buildLayer_lookup (groups : list string) (item : Layer) k v :
  k ≠ "__proto__"%string →
  item !! k = Some v → buildLayer groups item !! k = Some v.
Proof.
  intros Hp Hk. unfold buildLayer. rewrite object_assign_lookup by done.
  destruct (buildLayer_fold_lookup groups item ∅ k) as [Hn|Hs];
    [by left| |].
  - by rewrite lookup_union_r.
  - erewrite lookup_union_Some_l; [done|]. rewrite Hs. unfold js_get.
    by rewrite Hk.
Qed.

(** C7: whatever the field names, the Layers are as many as the distinct
    category keys and come in first-seen category order, each holding the
    rows of its category (and the category as its key, unless a row of the
    category is itself filed under "key"); the groups are the distinct
    group keys, each once, in first-seen order. *)
Theorem C7_layers_and_groups (lb : Labels) (data : list Row) :
  length (prepare_transformed lb data)
  = size (list_to_set (name <$> data) : gset string)
  ∧ Forall2
      (λ cat (layer : Layer),
         layer !! "values"%string = Some (PRows (category_rows data cat))
         ∧ category_rows data cat ≠ []
         ∧ ((∀ d, d ∈ data → name d = cat →
                  at_groupLabel lb d ≠ "key"%string) →
            layer !! "key"%string = Some (PStr cat)))
      (first_seen (name <$> data)) (prepare_transformed lb data)
  ∧ length (buildLayers (prepare_groups data) (prepare_transformed lb data))
    = length (prepare_transformed lb data)
  ∧ prepare_groups data = first_seen (group <$> data)
  ∧ NoDup (prepare_groups data)
  ∧ (∀ g, g ∈ prepare_groups data ↔ g ∈ group <$> data)
  ∧ length (prepare_groups data)
    = size (list_to_set (group <$> data) : gset string).
Proof.
  assert (prepare_groups data = first_seen (group <$> data)) as Hgroups
    by apply uniq_first_seen.
  split_and!.
  - by rewrite prepare_transformed_spec, length_fmap, length_first_seen.
  - rewrite prepare_transformed_spec. apply Forall2_fmap_r, Forall_Forall2_diag.
    apply Forall_forall. intros cat Hcat. split_and!.
    + apply layer_rows.
    + by apply category_rows_nonempty.
    + intros Hkey. apply layer_key. intros d Hd.
      apply category_rows_name in Hd as [Hd Hn]. by apply Hkey.
  - unfold buildLayers. by rewrite length_fmap.
  - done.
  - rewrite Hgroups. apply NoDup_first_seen_from.
  - intros g. by rewrite Hgroups, elem_of_first_seen.
  - by rewrite Hgroups, length_first_seen.
Qed.

Lemma C7_layers_and_groups_witness :
  ∃ layer : Layer,
    prepare_transformed default_labels scenario !! 0%nat = Some layer
    ∧ layer !! "values"%string = Some (PRows (category_rows scenario "A"))
    ∧ layer !! "key"%string = Some (PStr "A").
Proof.
  destruct (C7_layers_and_groups default_labels scenario)
    as (_ & Hlayers & _).
  destruct (Forall2_lookup_l _ _ _ 0%nat "A"%string Hlayers eq_refl)
    as (layer & Hlayer & Hvalues & _ & Hkey).
  exists layer. split_and!; [exact Hlayer|exact Hvalues|].
  apply Hkey. intros d Hd Hn. revert Hd Hn. unfold scenario.
  rewrite !elem_of_cons, elem_of_nil.
  intros [->|[->|[->|[]]]]; simpl; discriminate.
Defined.

(** ** The magnitude bound *)

Lemma d3_max_step_true_max (seen : list jsnum) acc v :
  true_max seen acc → true_max (seen ++ [v]) (d3_max_step acc v).
Proof.
  unfold true_max, d3_max_step, js_ge, js_le, js_lt.
  destruct acc as [[m|]|]; [|done|].
  - intros [Hm Hle]. destruct v as [z|]; simpl.
    + case_bool_decide as Hlt.
      * split; [apply elem_of_app; right; by left|].
        intros z' [Hz'|Hz']%elem_of_app.
        -- specialize (Hle z' Hz'). lia.
        -- apply list_elem_of_singleton in Hz'. injection Hz' as ->. lia.
      * split; [apply elem_of_app; by left|].
        intros z' [Hz'|Hz']%elem_of_app; [by apply Hle|].
        apply list_elem_of_singleton in Hz'. injection Hz' as ->. lia.
    + split; [apply elem_of_app; by left|].
      intros z' [Hz'|Hz']%elem_of_app; [by apply Hle|].
      by apply list_elem_of_singleton in Hz'.
  - intros Hnan. destruct v as [z|]; simpl.
    + rewrite bool_decide_eq_true_2 by lia.
      split; [apply elem_of_app; right; by left|].
      intros z' [Hz'|Hz']%elem_of_app; [by apply Hnan in Hz'|].
      apply list_elem_of_singleton in Hz'. injection Hz' as ->. lia.
    + intros v [Hv|Hv]%elem_of_app; [by apply Hnan|].
      by apply list_elem_of_singleton in Hv.
Qed.

Lemma d3_max_fold_true_max (vs seen : list jsnum) acc :
  true_max seen acc → true_max (seen ++ vs) (fold_left d3_max_step vs acc).
Proof.
  revert seen acc. induction vs as [|v vs IH]; intros seen acc Hacc; simpl.
  - by rewrite app_nil_r.
  - rewrite cons_middle, (assoc_L (++)). apply IH.
    by apply d3_max_step_true_max.
Qed.

(** [max] is the largest of the numbers, NaN apart. *)
Lemma d3_max_true_max (vs : list jsnum) : true_max vs (d3_max vs).
Proof.
  apply (d3_max_fold_true_max vs [] None). intros v Hv.
  by apply elem_of_nil in Hv.
Qed.

(** The test [isAllZero] of [getYMax]. *)
Lemma isAllZero_spec (data : list Row) :
  size (list_to_set (getValue <$> data) : gset jsnum) = 1%nat
  ∧ Num 0 ∈ (list_to_set (getValue <$> data) : gset jsnum)
  ↔ data ≠ [] ∧ all_zero data.
Proof.
  unfold all_zero. split.
  - intros [Hsize Hzero].
    apply size_1_elem_of in Hsize as [x Hx].
    assert (x = Num 0) as -> by (rewrite Hx in Hzero; set_solver).
    split.
    + intros ->. simpl in Hx. set_solver.
    + apply Forall_forall. intros d Hd.
      assert (getValue d ∈ (list_to_set (getValue <$> data) : gset jsnum))
        as Hin.
      { apply elem_of_list_to_set. by apply list_elem_of_fmap_2. }
      rewrite Hx in Hin. set_solver.
  - intros [Hne Hall].
    assert ((list_to_set (getValue <$> data) : gset jsnum) = {[ Num 0 ]})
      as ->.
    { apply set_eq. intros v.
      rewrite elem_of_list_to_set, list_elem_of_fmap, elem_of_singleton.
      split.
      - intros (d & -> & Hd). by apply (proj1 (Forall_forall _ _) Hall).
      - intros ->. destruct data as [|d data]; [done|].
        exists d. split; [|by left].
        symmetry. apply (proj1 (Forall_forall _ _) Hall). by left. }
    split; [apply size_singleton|set_solver].
Qed.

Lemma getYMax_all_zero (data : list Row) :
  data ≠ [] → all_zero data → getYMax data = Some (Num 1).
Proof.
  intros Hne Hall. unfold getYMax.
  destruct (proj2 (isAllZero_spec data) (conj Hne Hall)) as [Hs Hz].
  by rewrite !bool_decide_eq_true_2.
Qed.

Lemma getYMax_otherwise (data : list Row) :
  ¬ (data ≠ [] ∧ all_zero data) →
  getYMax data = d3_max (value <$> data).
Proof.
  intros Hnot. unfold getYMax.
  destruct (bool_decide (size _ = 1%nat)) eqn:Hs; [|done].
  destruct (bool_decide (Num 0 ∈ _)) eqn:Hz; [|done].
  exfalso. apply Hnot, isAllZero_spec.
  split; [by apply bool_decide_eq_true in Hs|by apply bool_decide_eq_true in Hz].
Qed.

(** C2, as the specification words it, fails on the code: the bound is 1
    for the values 0 and 1, which are not all zero; and in a dataset with
    no record every record's value is zero, yet there is no bound. *)
Lemma C2_bound_counterexample :
  (getYMax (rows_of_values [0; 1]) = Some (Num 1)
   ∧ ¬ all_zero (rows_of_values [0; 1]))
  ∧ (all_zero [] ∧ getYMax [] = None).
Proof.
  split_and!; [by vm_compute| |constructor|by vm_compute].
  intros Hall. apply Forall_cons in Hall as [_ Hall].
  apply Forall_cons in Hall as [Hone _]. discriminate.
Qed.

(** C2, amended: for a dataset that is not empty, the upper bound of the
    magnitude domain is 1 if every record's value is exactly 0, and
    otherwise it is the largest value observed (NaN apart), which can
    itself be 1; three records of value 0 give 1, the values 0, 5, 3 give
    5, and the values 0, 1 give 1. *)
Theorem C2_magnitude_bound :
  (∀ data : list Row,
     data ≠ [] → all_zero data → getYMax data = Some (Num 1))
  ∧ (∀ data : list Row,
       ¬ (data ≠ [] ∧ all_zero data) →
       getYMax data = d3_max (value <$> data)
       ∧ true_max (value <$> data) (getYMax data))
  ∧ getYMax (rows_of_values [0; 0; 0]) = Some (Num 1)
  ∧ getYMax (rows_of_values [0; 5; 3]) = Some (Num 5)
  ∧ getYMax (rows_of_values [0; 1]) = Some (Num 1).
Proof.
  split_and!; try (by vm_compute).
  - apply getYMax_all_zero.
  - intros data Hnot. rewrite getYMax_otherwise by done.
    split; [done|apply d3_max_true_max].
Qed.

Lemma C2_magnitude_bound_witness :
  getYMax (rows_of_values [0; 0; 0]) = Some (Num 1)
  ∧ (getYMax (rows_of_values [0; 5; 3])
     = d3_max (value <$> rows_of_values [0; 5; 3])
     ∧ true_max (value <$> rows_of_values [0; 5; 3])
                (getYMax (rows_of_values [0; 5; 3]))).
Proof.
  split.
  - apply (proj1 C2_magnitude_bound (rows_of_values [0; 0; 0])).
    + discriminate.
    + repeat constructor.
  - apply (proj1 (proj2 C2_magnitude_bound) (rows_of_values [0; 5; 3])).
    intros [_ Hall]. apply Forall_cons in Hall as [_ Hall].
    apply Forall_cons in Hall as [Hfive _]. discriminate.
Defined.

(** ** The animation delay table *)

Lemma ceil_div_mul (n step : Z) : step ≠ 0 → ceil_div (n * step) step = n.
Proof.
  intros Hstep. unfold ceil_div.
  rewrite <- Z.mul_opp_l, Z.div_mul by done. lia.
Qed.

(** The upper bound of [range] is excluded: one slot per layer. *)
Lemma delay_table_spec (step : Z) (layers : list Layer) :
  step ≠ 0 →
  delay_table step layers
  = (λ i : nat, step * (Z.of_nat i + 1)) <$> seq 0 (length layers).
Proof.
  intros Hstep. unfold delay_table, d3_range.
  rewrite decide_False by done.
  replace ((Z.of_nat (length layers) + 1) * step - step)
    with (Z.of_nat (length layers) * step) by lia.
  rewrite ceil_div_mul by done.
  rewrite Z.max_r, Nat2Z.id by lia.
  apply list_fmap_ext. intros _ i _. lia.
Qed.

Lemma stepwise_table (step : Z) (n : nat) :
  0 < step →
  stepwise step ((λ i : nat, step * (Z.of_nat i + 1)) <$> seq 0 n).
Proof.
  intros Hstep. split.
  - destruct n as [|n]; [done|]. simpl. f_equal. lia.
  - intros i a b. rewrite !list_lookup_fmap.
    destruct (seq 0 n !! i) as [j|] eqn:Hj; [|done].
    destruct (seq 0 n !! S i) as [k|] eqn:Hk; [|done].
    apply lookup_seq in Hj as [-> _]. apply lookup_seq in Hk as [-> _].
    simpl. intros [= <-] [= <-]. lia.
Qed.

Lemma length_first_seen_from_le {A} `{EqDecision A} (seen l : list A) :
  (length (first_seen_from seen l) ≤ length l)%nat.
Proof.
  revert seen. induction l as [|x l IH]; intros seen; simpl; [lia|].
  destruct (decide (x ∈ seen)).
  - specialize (IH seen). lia.
  - simpl. specialize (IH (x :: seen)). lia.
Qed.

(** [buildScales] leaves the data, the groups and the transformed data as
    they are. *)
Lemma buildScales_frame (c : Chart) :
  config (buildScales c) = config c
  ∧ data (buildScales c) = data c
  ∧ groups (buildScales c) = groups c
  ∧ transformedData (buildScales c) = transformedData c
  ∧ layers (buildScales c) = layers c.
Proof. unfold buildScales. by destruct (isHorizontal (config c)). Qed.

(** What a render that is not suspended by the loading flag computes. *)
Lemma render_unfold (_data : list Row) (c : Chart) :
  isLoading (config c) = false →
  render _data c
  = drawGroupedBar
      (buildLayers_step (buildScales (prepareData (bind_data _data c)))).
Proof. intros Hl. unfold render. simpl. by rewrite Hl. Qed.

Lemma render_layers (_data : list Row) (c : Chart) :
  isLoading (config c) = false →
  layers (render _data c)
  = buildLayers (prepare_groups _data)
                (prepare_transformed (labels (config c)) _data).
Proof.
  intros Hl. rewrite render_unfold by done. simpl.
  destruct (buildScales_frame (prepareData (bind_data _data c)))
    as (_ & _ & -> & -> & _).
  done.
Qed.

Lemma render_delays (_data : list Row) (c : Chart) :
  isLoading (config c) = false →
  animationDelays (render _data c)
  = delay_table (animationDelayStep (config c))
                (buildLayers (prepare_groups _data)
                             (prepare_transformed (labels (config c)) _data)).
Proof.
  intros Hl. rewrite render_unfold by done. simpl.
  destruct (buildScales_frame (prepareData (bind_data _data c)))
    as (-> & _ & -> & -> & _).
  done.
Qed.

Lemma length_layers (lb : Labels) (_data : list Row) :
  length (buildLayers (prepare_groups _data) (prepare_transformed lb _data))
  = length (first_seen (name <$> _data)).
Proof.
  unfold buildLayers.
  by rewrite length_fmap, prepare_transformed_spec, length_fmap.
Qed.

(** C3, as the specification words it, fails on the code: three bars, each
    in a category of its own, with the step 20 give the three delays 20,
    40, 60 and not the four delays 20, 40, 60, 80; the bars of the
    end-to-end scenario, which are three in two categories, give two. *)
Lemma C3_delays_counterexample :
  length three_bars = 3%nat
  ∧ animationDelayStep (config sample_chart) = 20
  ∧ animationDelays (render three_bars sample_chart) = [20; 40; 60]
  ∧ animationDelays (render three_bars sample_chart) ≠ [20; 40; 60; 80]
  ∧ length (animationDelays (render three_bars sample_chart))
    ≠ (length three_bars + 1)%nat
  ∧ animationDelays (render scenario sample_chart) = [20; 40].
Proof.
  assert (animationDelays (render three_bars sample_chart) = [20; 40; 60])
    as Heq by (by vm_compute).
  split_and!; try done; try (by vm_compute); rewrite Heq; discriminate.
Qed.

(** C3, amended: for any dataset and any positive delay step, the delay
    table of a render is strictly increasing with the constant step,
    starts at one step, and has one slot per Layer, that is per distinct
    category: the bound [(layers.length + 1) * step] of [range] is
    excluded, so the table is never longer than the number of bars. *)
Theorem C3_delay_table (c : Chart) (_data : list Row) :
  isLoading (config c) = false →
  0 < animationDelayStep (config c) →
  animationDelays (render _data c)
  = (λ i : nat, animationDelayStep (config c) * (Z.of_nat i + 1))
      <$> seq 0 (length (layers (render _data c)))
  ∧ stepwise (animationDelayStep (config c)) (animationDelays (render _data c))
  ∧ length (animationDelays (render _data c))
    = size (list_to_set (name <$> _data) : gset string)
  ∧ (length (animationDelays (render _data c)) ≤ length _data)%nat.
Proof.
  intros Hl Hstep.
  rewrite render_delays, render_layers by done.
  rewrite delay_table_spec by lia.
  split_and!.
  - done.
  - by apply stepwise_table.
  - by rewrite length_fmap, length_seq, length_layers, length_first_seen.
  - rewrite length_fmap, length_seq, length_layers.
    etrans; [apply length_first_seen_from_le|]. by rewrite length_fmap.
Qed.

Lemma C3_delay_table_witness :
  animationDelays (render scenario sample_chart)
  = (λ i : nat, animationDelayStep (config sample_chart) * (Z.of_nat i + 1))
      <$> seq 0 (length (layers (render scenario sample_chart)))
  ∧ stepwise (animationDelayStep (config sample_chart))
             (animationDelays (render scenario sample_chart))
  ∧ length (animationDelays (render scenario sample_chart))
    = size (list_to_set (name <$> scenario) : gset string)
  ∧ (length (animationDelays (render scenario sample_chart))
     ≤ length scenario)%nat.
Proof. apply (C3_delay_table sample_chart scenario); [reflexivity|reflexivity]. Defined.

(** ** The hit-testers *)

Lemma js_find_Some {A} (p : A → bool) (l : list A) x :
  js_find p l = Some x →
  ∃ pre post, l = pre ++ x :: post
              ∧ Forall (λ d, p d = false) pre ∧ p x = true.
Proof.
  induction l as [|y l IH]; simpl; [done|].
  destruct (p y) eqn:Hy.
  - intros [= ->]. by exists [], l.
  - intros (pre & post & -> & Hpre & Hx)%IH.
    exists (y :: pre), post. split_and!; [done| |done]. by constructor.
Qed.

Lemma js_find_None {A} (p : A → bool) (l : list A) :
  js_find p l = None → Forall (λ d, p d = false) l.
Proof.
  induction l as [|y l IH]; simpl; [constructor|].
  destruct (p y) eqn:Hy; [done|]. intros Hl. constructor; auto.
Qed.

Lemma Forall_not_true {A} (p : A → bool) (l : list A) :
  Forall (λ d, p d = false) l → Forall (λ d, ¬ p d = true) l.
Proof. intros Hl. eapply Forall_impl; [done|]. by intros d ->. Qed.

(** The scan over layers whose [values] are arrays never throws; what it
    pushes first is the first match. *)
Lemma scan_layers_first_match (accept : Row → bool)
    (layers : list Layer) (rowss : list (list Row)) (nearest : list Hit) :
  Forall2 (λ (layer : Layer) rows, layer_values layer = Some rows)
          layers rowss →
  ∃ hits,
    scan_layers accept layers nearest = Return (nearest ++ hits)
    ∧ first_match (λ d, accept d = true) rowss (head hits).
Proof.
  intros Hrows. revert nearest.
  induction Hrows as [|layer rows layers rowss Hv _ IH]; intros nearest.
  - exists []. split; [by rewrite app_nil_r|]. constructor.
  - simpl. rewrite Hv. destruct (js_find accept rows) as [found|] eqn:Hfind.
    + destruct (IH (nearest ++ [mkHit found rows (name found)]))
        as (hits & -> & _).
      exists (mkHit found rows (name found) :: hits).
      split; [by rewrite <- (assoc_L (++))|].
      apply js_find_Some in Hfind as (pre & post & -> & Hpre & Hx).
      exists [], pre, post, rowss. simpl. split_and!; try done.
      by apply Forall_not_true.
    + destruct (IH nearest) as (hits & -> & Hfirst).
      exists hits. split; [done|].
      apply js_find_None, Forall_not_true in Hfind.
      destruct (head hits) as [h|]; simpl in *.
      * destruct Hfirst as (before & pre & post & after & -> & ? & ? & ? & ? & ?).
        exists (rows :: before), pre, post, after.
        split_and!; try done. by constructor.
      * by constructor.
Qed.

Lemma first_match_iff (P Q : Row → Prop) rowss r :
  (∀ d, P d ↔ Q d) → first_match P rowss r → first_match Q rowss r.
Proof.
  intros HPQ.
  assert (∀ l, Forall (λ d, ¬ P d) l → Forall (λ d, ¬ Q d) l) as Hrow.
  { intros l Hl. eapply Forall_impl; [done|].
    intros d Hd HQ. by apply Hd, HPQ. }
  assert (∀ ll, Forall (Forall (λ d, ¬ P d)) ll
                → Forall (Forall (λ d, ¬ Q d)) ll) as Hrows.
  { intros ll Hll. eapply Forall_impl; [done|]. apply Hrow. }
  destruct r as [h|]; simpl; [|apply Hrows].
  intros (before & pre & post & after & -> & ? & ? & ? & ? & ?).
  exists before, pre, post, after. split_and!; auto. by apply HPQ.
Qed.

(** The domain of a band scale is the first-seen order of its keys. *)
Lemma ordinal_domain_from (keys domain : list string) :
  fold_left (λ domain key, if decide (key ∈ domain) then domain
                           else domain ++ [key])
            keys domain
  = domain ++ first_seen_from domain keys.
Proof.
  revert domain. induction keys as [|k keys IH]; intros domain; simpl.
  - by rewrite app_nil_r.
  - rewrite IH. destruct (decide (k ∈ domain)); [done|].
    rewrite <- (assoc_L (++)). simpl. do 2 f_equal.
    apply first_seen_from_ext. intros x.
    rewrite elem_of_app, list_elem_of_singleton, elem_of_cons. naive_solver.
Qed.

Lemma ordinal_domain_first_seen (keys : list string) :
  ordinal_domain keys = first_seen keys.
Proof. apply (ordinal_domain_from keys []). Qed.

(** The test of each hit-tester, in integers. *)
Lemma accept_x_spec (lb : Labels) (m : Margin) (xScale xScale2 : band_scale)
    mouseX d :
  accept_x lb m xScale xScale2 mouseX d = true
  ↔ ∃ p1 p2,
      band_call xScale (name d) = Some p1
      ∧ band_call xScale2 (at_groupLabel lb d) = Some p2
      ∧ p1 + p2 ≤ mouseX - left m
      ∧ (mouseX - left m) - (p1 + p2) ≤ bandwidth xScale2.
Proof.
  unfold accept_x, at_nameLabel, js_ge, js_le, js_add, js_sub.
  destruct (band_call xScale (name d)) as [p1|],
    (band_call xScale2 (at_groupLabel lb d)) as [p2|]; simpl.
  - rewrite andb_true_iff, !bool_decide_eq_true. split.
    + intros [H1 H2]. exists p1, p2. split_and!; try done; lia.
    + intros (? & ? & [= <-] & [= <-] & H1 & H2). split; lia.
  - split; [done|]. by intros (? & ? & _ & ? & _).
  - split; [done|]. by intros (? & ? & ? & _).
  - split; [done|]. by intros (? & ? & ? & _).
Qed.




Lemma accept_y_spec (m : Margin) (yScale : band_scale) mouseY d :
  accept_y m yScale mouseY d = true
  ↔ in_category_band m yScale (2 * bandwidth yScale) mouseY d.
Proof.
  unfold accept_y, in_category_band, js_ge, js_le, js_sub, js_mul.
  destruct (band_call yScale (name d)) as [p|]; simpl.
  - rewrite andb_true_iff, !bool_decide_eq_true. split.
    + intros [H1 H2]. exists p. split_and!; try done; lia.
    + intros (? & [= <-] & H1 & H2). split; lia.
  - split; [done|]. by intros (? & ? & _).
Qed.

(** The layers of a render hold the rows of their categories as arrays. *)
Lemma render_layer_values (_data : list Row) (c : Chart) :
  isLoading (config c) = false →
  Forall2 (λ (layer : Layer) rows, layer_values layer = Some rows)
          (layers (render _data c))
          (category_rows _data <$> first_seen (name <$> _data)).
Proof.
  intros Hl. rewrite render_layers by done.
  unfold buildLayers. rewrite prepare_transformed_spec, <- list_fmap_compose.
  apply Forall2_fmap, Forall_Forall2_diag, Forall_forall.
  intros cat _. simpl. unfold layer_values.
  rewrite (buildLayer_lookup _ _ "values" _ ltac:(done) (layer_rows _ _ _ _)).
  done.
Qed.

Lemma render_config (_data : list Row) (c : Chart) :
  config (render _data c) = config c.
Proof.
  unfold render. simpl. destruct (isLoading (config c)); [done|]. simpl.
  by destruct (buildScales_frame (prepareData (bind_data _data c))) as [-> _].
Qed.

Lemma render_vertical_scales (_data : list Row) (c : Chart) :
  isLoading (config c) = false → isHorizontal (config c) = false →
  xScale (render _data c)
  = Some (BandScale (vertical_xScale (prepareData (bind_data _data c))))
  ∧ xScale2 (render _data c)
    = Some (vertical_xScale2 (prepareData (bind_data _data c))).
Proof.
  intros Hl Hh. rewrite render_unfold by done. simpl.
  unfold buildScales. simpl. by rewrite Hh.
Qed.

Lemma render_horizontal_scales (_data : list Row) (c : Chart) :
  isLoading (config c) = false → isHorizontal (config c) = true →
  yScale (render _data c)
  = Some (BandScale (horizontal_yScale (prepareData (bind_data _data c))))
  ∧ yScale2 (render _data c)
    = Some (horizontal_yScale2 (prepareData (bind_data _data c))).
Proof.
  intros Hl Hh. rewrite render_unfold by done. simpl.
  unfold buildScales. simpl. by rewrite Hh.
Qed.




(** C5, as the specification words it, fails on the code: on the scenario
    drawn horizontally at the default size the category bandwidth is 171
    and category B sits at 20; a pointer at y = 260, 200 once the bottom
    margin is taken off, is 180 past B, further than the bandwidth, so no
    row is within the tolerance that the specification states; yet the
    tester returns the row of B. *)
Lemma C5_tolerance_counterexample :
  yScale (render scenario sample_horizontal_chart)
  = Some (BandScale sample_yScale)
  ∧ bandwidth sample_yScale = 171
  ∧ band_call sample_yScale "B" = Some 20
  ∧ getNearestDataPoint2
      (margin (config (render scenario sample_horizontal_chart)))
      sample_yScale (layers (render scenario sample_horizontal_chart)) 260
    = Return (Some sample_hit)
  ∧ first_match
      (in_category_band (margin (config sample_horizontal_chart))
                        sample_yScale (bandwidth sample_yScale) 260)
      (category_rows scenario <$> first_seen (name <$> scenario)) None.
Proof.
  assert (bandwidth sample_yScale = 171) as Hbw by (by vm_compute).
  assert (band_call sample_yScale "A" = Some 210) as HA by (by vm_compute).
  assert (band_call sample_yScale "B" = Some 20) as HB by (by vm_compute).
  split_and!; try done; try (by vm_compute).
  rewrite Hbw.
  replace (category_rows scenario <$> first_seen (name <$> scenario))
    with [ [mkRow "A" "X" (Num 0); mkRow "A" "Y" (Num 0)];
           [mkRow "B" "X" (Num 10)] ] by (by vm_compute).
  repeat constructor; intros (p & Hp & Hle & Htol); simpl in *;
    rewrite ?HA, ?HB in Hp; injection Hp as <-; lia.
Qed.

(** C5, amended: on a chart rendered in horizontal orientation, for every
    pointer y the hit-tester does not throw; it takes the bottom margin
    off the pointer y and returns the first row, layer by layer and row
    by row in stored order, whose category position is at most the
    adjusted y and at most twice the category bandwidth short of it,
    together with the rows of its layer; and it returns [undefined] when
    no row of any layer is such. *)
Theorem C5_horizontal_hit (c : Chart) (_data : list Row) (mouseY : Z) :
  isLoading (config c) = false →
  isHorizontal (config c) = true →
  ∃ (y1 : band_scale) (r : option Hit),
    yScale (render _data c) = Some (BandScale y1)
    ∧ getNearestDataPoint2 (margin (config (render _data c))) y1
                           (layers (render _data c)) mouseY
      = Return r
    ∧ first_match
        (in_category_band (margin (config c)) y1 (2 * bandwidth y1) mouseY)
        (category_rows _data <$> first_seen (name <$> _data)) r.
Proof.
  intros Hl Hh.
  destruct (render_horizontal_scales _data c Hl Hh) as [Hy1 _].
  set (y1 := horizontal_yScale _) in *.
  destruct (scan_layers_first_match
              (accept_y (margin (config c)) y1 mouseY)
              (layers (render _data c))
              (category_rows _data <$> first_seen (name <$> _data)) [])
    as (hits & Hscan & Hfirst); [by apply render_layer_values|].
  exists y1, (head hits). split_and!; try done.
  - unfold getNearestDataPoint2. by rewrite render_config, Hscan.
  - eapply first_match_iff; [|done]. intros d. apply accept_y_spec.
Qed.

Lemma C5_horizontal_hit_witness :
  ∃ (y1 : band_scale) (r : option Hit),
    yScale (render scenario sample_horizontal_chart) = Some (BandScale y1)
    ∧ getNearestDataPoint2
        (margin (config (render scenario sample_horizontal_chart))) y1
        (layers (render scenario sample_horizontal_chart)) 260
      = Return r
    ∧ first_match
        (in_category_band (margin (config sample_horizontal_chart)) y1
                          (2 * bandwidth y1) 260)
        (category_rows scenario <$> first_seen (name <$> scenario)) r.
Proof.
  apply (C5_horizontal_hit sample_horizontal_chart scenario 260); reflexivity.
Defined.

(** ** The normaliser *)

Section normaliser_facts.
Variable StringToNumber : string → jsnum.
Implicit Types (lb : Labels) (d : RawRow).

Lemma cleanData_fold lb (originalData acc : list RawRow) :
  fold_left (λ acc d, acc ++ [cleanRow StringToNumber lb d]) originalData acc
  = acc ++ (cleanRow StringToNumber lb <$> originalData).
Proof.
  revert acc. induction originalData as [|d l IH]; intros acc; simpl.
  - by rewrite app_nil_r.
  - by rewrite IH, <- (assoc_L (++)).
Qed.

Lemma cleanData_fmap lb (originalData : list RawRow) :
  cleanData StringToNumber lb originalData
  = cleanRow StringToNumber lb <$> originalData.
Proof. apply (cleanData_fold lb originalData []). Qed.

Lemma js_read_insert d k k' v :
  js_read (<[k := v]> d) k' = if decide (k = k') then v else js_read d k'.
Proof.
  unfold js_read. rewrite lookup_insert. by case_decide.
Qed.

Lemma cleanRow_value lb d :
  cleanRow StringToNumber lb d !! "value"%string
  = Some (VNum (ToNumber StringToNumber (js_read d (valueLabel lb)))).
Proof.
  unfold cleanRow. rewrite !lookup_insert_ne by done.
  by rewrite lookup_insert_eq.
Qed.

Lemma cleanRow_group lb d :
  cleanRow StringToNumber lb d !! "group"%string
  = Some (js_read
            (<["value" := VNum (ToNumber StringToNumber
                                         (js_read d (valueLabel lb)))]> d)
            (groupLabel lb)).
Proof.
  unfold cleanRow. rewrite !lookup_insert_ne by done.
  by rewrite lookup_insert_eq.
Qed.

Lemma cleanRow_topicName lb d :
  cleanRow StringToNumber lb d !! "topicName"%string
  = cleanRow StringToNumber lb d !! "group"%string.
Proof.
  rewrite cleanRow_group. unfold cleanRow.
  rewrite lookup_insert_ne by done. rewrite lookup_insert_eq. f_equal.
  rewrite js_read_insert. by case_decide; subst; rewrite ?js_read_insert.
Qed.

Lemma cleanRow_name lb d :
  cleanRow StringToNumber lb d !! "name"%string
  = Some (if decide (nameLabel lb = "value"%string)
          then VNum (ToNumber StringToNumber (js_read d (valueLabel lb)))
          else if decide (nameLabel lb = "group"%string
                          ∨ nameLabel lb = "topicName"%string)
          then default VUndef (cleanRow StringToNumber lb d !! "group"%string)
          else js_read d (nameLabel lb)).
Proof.
  rewrite cleanRow_group. unfold cleanRow. rewrite lookup_insert_eq. f_equal.
  rewrite !js_read_insert. simpl.
  repeat case_decide; simplify_eq; try done; try congruence;
    exfalso; naive_solver.
Qed.

Lemma cleanRow_other lb d k :
  k ≠ "value"%string → k ≠ "group"%string →
  k ≠ "topicName"%string → k ≠ "name"%string →
  cleanRow StringToNumber lb d !! k = d !! k.
Proof. intros. unfold cleanRow. by rewrite !lookup_insert_ne. Qed.

(** What the later stages read under the field names on a row that
    [cleanData] has written, whatever the row and the field names:
    [d[nameLabel]] is [d.name], and [d[groupLabel]] is [d.group] unless
    the group label is "name", where it is [d.name]. *)
Lemma cleaned_label_reads lb d :
  js_read (cleanRow StringToNumber lb d) (nameLabel lb)
  = js_read (cleanRow StringToNumber lb d) "name"
  ∧ js_read (cleanRow StringToNumber lb d) (groupLabel lb)
    = if decide (groupLabel lb = "name"%string)
      then js_read (cleanRow StringToNumber lb d) "name"
      else js_read (cleanRow StringToNumber lb d) "group".
Proof.
  unfold cleanRow. split.
  - rewrite !js_read_insert.
    repeat case_decide; simplify_eq; try done; try congruence.
  - case_decide as Hg.
    + by rewrite Hg.
    + rewrite !js_read_insert.
      repeat case_decide; simplify_eq; try done; try congruence.
Qed.

(** The same on a normalised row of the documented type. *)
Lemma cleaned_row_reads lb d (r : Row) :
  as_row (cleanRow StringToNumber lb d) = Some r →
  js_read (cleanRow StringToNumber lb d) (nameLabel lb)
  = VStr (at_nameLabel lb r)
  ∧ js_read (cleanRow StringToNumber lb d) (groupLabel lb)
    = VStr (at_groupLabel lb r).
Proof.
  intros Hr. destruct (cleaned_label_reads lb d) as [-> ->].
  unfold as_row in Hr. unfold at_nameLabel, at_groupLabel.
  destruct (js_read (cleanRow StringToNumber lb d) "name") as [| | | |n|];
    try done.
  destruct (js_read (cleanRow StringToNumber lb d) "group") as [| | | |g|];
    try done.
  destruct (js_read (cleanRow StringToNumber lb d) "value") as [| | |v| |];
    try done.
  injection Hr as <-. simpl. by case_decide.
Qed.



End normaliser_facts.

(** What [exports] hands to the stages after [cleanData]: the normalised
    objects, each of the documented type, on each of which [d[nameLabel]]
    and [d[groupLabel]] read what [at_nameLabel] and [at_groupLabel]
    say. *)
Lemma exports_rows (StringToNumber : string → jsnum) (_data : list RawRow)
    (c c' : Chart) :
  exports StringToNumber _data c = Some c' →
  ∃ rows : list Row,
    c' = render rows c
    ∧ Forall2
        (λ (d : RawRow) (r : Row),
           as_row d = Some r
           ∧ js_read d (nameLabel (labels (config c)))
             = VStr (at_nameLabel (labels (config c)) r)
           ∧ js_read d (groupLabel (labels (config c)))
             = VStr (at_groupLabel (labels (config c)) r))
        (cleanData StringToNumber (labels (config c)) _data) rows.
Proof.
  unfold exports, as_rows.
  destruct (mapM as_row _) as [rows|] eqn:Hrows; [|done].
  simpl. intros [= <-]. exists rows. split; [done|].
  apply mapM_Some_1 in Hrows. revert Hrows. rewrite cleanData_fmap.
  generalize rows. clear rows.
  induction _data as [|d l IH]; intros rows Hrows.
  - apply Forall2_nil_inv_l in Hrows as ->. constructor.
  - rewrite fmap_cons in Hrows.
    apply Forall2_cons_inv_l in Hrows as (r & rows' & Hr & Hrows' & ->).
    rewrite fmap_cons. constructor; [|by apply IH].
    split; [done|]. by apply cleaned_row_reads.
Qed.




(** ** The scale builder *)

(** C8 fails on the code in vertical orientation: there the group
    sub-scale [xScale2] is padded with [betweenGroupsPadding], the ratio
    that also pads the category scale, and [betweenBarsPadding] is not
    read at all, so that setting it changes no scale; in horizontal
    orientation the category scale takes [betweenGroupsPadding] and the
    group sub-scale [betweenBarsPadding], as the claim says.  With the
    padding between bars set to one half on the default chart, the
    vertical sub-scale is still padded by one tenth. *)
Theorem C8_vertical_padding (c : Chart) (p : Q) :
  (isHorizontal (config c) = false →
   xScale (buildScales c)
   = Some (BandScale (scaleBand (getName <$> data c) 0 (chartWidth c)
                                (betweenGroupsPadding (config c))))
   ∧ band_padding <$> xScale2 (buildScales c)
     = Some (betweenGroupsPadding (config c))
   ∧ xScale (buildScales
               (with_config (set_betweenBarsPadding p (config c)) c))
     = xScale (buildScales c)
   ∧ xScale2 (buildScales
                (with_config (set_betweenBarsPadding p (config c)) c))
     = xScale2 (buildScales c))
  ∧ (isHorizontal (config c) = true →
     yScale (buildScales c)
     = Some (BandScale (scaleBand (getName <$> data c) (chartHeight c) 0
                                  (betweenGroupsPadding (config c))))
     ∧ band_padding <$> yScale2 (buildScales c)
       = Some (betweenBarsPadding (config c)))
  ∧ (betweenBarsPadding (config wide_bars_chart) = (1 # 2)%Q
     ∧ isHorizontal (config wide_bars_chart) = false
     ∧ band_padding <$> xScale2 (buildScales wide_bars_chart)
       = Some (1 # 10)%Q).
Proof.
  split_and!; try done.
  - intros Hh. unfold buildScales. simpl. by rewrite Hh.
  - intros Hh. unfold buildScales. by rewrite Hh.
Qed.

Lemma C8_vertical_padding_witness :
  xScale (buildScales wide_bars_chart)
  = Some (BandScale (scaleBand (getName <$> data wide_bars_chart) 0
                               (chartWidth wide_bars_chart)
                               (betweenGroupsPadding (config wide_bars_chart))))
  ∧ band_padding <$> xScale2 (buildScales wide_bars_chart)
    = Some (betweenGroupsPadding (config wide_bars_chart))
  ∧ xScale (buildScales
              (with_config (set_betweenBarsPadding (9 # 10)
                                                   (config wide_bars_chart))
                           wide_bars_chart))
    = xScale (buildScales wide_bars_chart)
  ∧ xScale2 (buildScales
               (with_config (set_betweenBarsPadding (9 # 10)
                                                    (config wide_bars_chart))
                            wide_bars_chart))
    = xScale2 (buildScales wide_bars_chart).
Proof.
  apply (proj1 (C8_vertical_padding wide_bars_chart (9 # 10))). reflexivity.
Defined.

(** ** The colour map *)

Lemma build_colors_kept (c : Chart) (m : ColorMap) :
  nameToColorMap c = Some m → (build_colors c).1 = Some m.
Proof. intros Hm. unfold build_colors. by rewrite Hm. Qed.

Lemma buildScales_color_map (c : Chart) :
  nameToColorMap (buildScales c) = (build_colors c).1.
Proof. unfold buildScales. by destruct (isHorizontal (config c)). Qed.

Lemma render_color_map_kept (_data : list Row) (c : Chart) (m : ColorMap) :
  nameToColorMap c = Some m → nameToColorMap (render _data c) = Some m.
Proof.
  intros Hm. unfold render. simpl.
  destruct (isLoading (config c)); [done|]. simpl.
  rewrite buildScales_color_map. by apply build_colors_kept.
Qed.

Lemma run_call_color_map_kept (c : Chart) (a : call) (m : ColorMap) :
  (∀ _x, a ≠ CallColorMap _x) →
  nameToColorMap c = Some m → nameToColorMap (run_call c a) = Some m.
Proof.
  intros Ha Hm. destruct a as [_data|_x|store]; simpl.
  - by apply render_color_map_kept.
  - by destruct (Ha _x).
  - done.
Qed.

(** C9: a colour map that the caller has set is what [buildScales] leaves
    in place, on this render and after any sequence of renders and
    accessor calls that does not call [colorMap] again; a call of
    [colorMap] replaces it; and when there is no map, [buildScales]
    derives one from the data and the palette. *)
Theorem C9_color_map_override :
  (∀ (c : Chart) (m : ColorMap),
     nameToColorMap c = Some m →
     nameToColorMap (buildScales c) = Some m
     ∧ ∀ calls : list call,
         Forall (λ a, ∀ _x, a ≠ CallColorMap _x) calls →
         nameToColorMap (run_calls c calls) = Some m)
  ∧ (∀ (c : Chart) (_x : option ColorMap),
       nameToColorMap (exports_colorMap _x c) = _x)
  ∧ (∀ c : Chart,
       nameToColorMap c = None →
       nameToColorMap (buildScales c)
       = Some (derive_color_map
                 (data c)
                 (mkOrdinal (ordinal_domain (getName <$> data c))
                            (colorSchema (config c)))).1).
Proof.
  split_and!.
  - intros c m Hm. split.
    + rewrite buildScales_color_map. by apply build_colors_kept.
    + intros calls Hcalls. revert c Hm. unfold run_calls.
      induction Hcalls as [|a calls Ha _ IH]; intros c Hm; [done|].
      simpl. apply IH. by apply run_call_color_map_kept.
  - done.
  - intros c Hnone. rewrite buildScales_color_map. unfold build_colors.
    rewrite Hnone. simpl. by destruct (derive_color_map _ _).
Qed.

Lemma C9_color_map_override_witness :
  nameToColorMap
    (buildScales (exports_colorMap (Some sample_override) sample_chart))
  = Some sample_override
  ∧ nameToColorMap
      (run_calls (exports_colorMap (Some sample_override) sample_chart)
                 [ CallRender scenario;
                   CallAccessor (set_isHorizontal true);
                   CallRender three_bars ])
    = Some sample_override.
Proof.
  destruct (proj1 C9_color_map_override
                  (exports_colorMap (Some sample_override) sample_chart)
                  sample_override eq_refl) as [Hbuild Hcalls].
  split; [exact Hbuild|].
  apply Hcalls. repeat constructor; discriminate.
Defined.

(** ** The margin *)

(** C10: the margin setter merges: each of the four sides is the one that
    the argument owns, and the side in place when the argument has none;
    no other option changes. *)
Theorem C10_margin_merge (c : Chart) (_x : gmap string Z) :
  (top (margin (config (exports_margin _x c)))
   = default (top (margin (config c))) (_x !! "top"%string)
   ∧ right (margin (config (exports_margin _x c)))
     = default (right (margin (config c))) (_x !! "right"%string)
   ∧ bottom (margin (config (exports_margin _x c)))
     = default (bottom (margin (config c))) (_x !! "bottom"%string)
   ∧ left (margin (config (exports_margin _x c)))
     = default (left (margin (config c))) (_x !! "left"%string))
  ∧ ((_x !! "top"%string = None →
      top (margin (config (exports_margin _x c))) = top (margin (config c)))
     ∧ (_x !! "right"%string = None →
        right (margin (config (exports_margin _x c)))
        = right (margin (config c)))
     ∧ (_x !! "bottom"%string = None →
        bottom (margin (config (exports_margin _x c)))
        = bottom (margin (config c)))
     ∧ (_x !! "left"%string = None →
        left (margin (config (exports_margin _x c)))
        = left (margin (config c))))
  ∧ exports_margin _x c
    = with_config (set_margin (margin (config (exports_margin _x c)))
                              (config c)) c
  ∧ margin (config (exports_margin left_only sample_chart))
    = mkMargin 40 30 60 10.
Proof.
  split_and!; try done; simpl; by intros ->.
Qed.

Lemma C10_margin_merge_witness :
  top (margin (config (exports_margin left_only sample_chart))) = 40
  ∧ left (margin (config (exports_margin left_only sample_chart))) = 10.
Proof.
  destruct (C10_margin_merge sample_chart left_only)
    as (_ & (Htop & _) & _).
  split; [apply Htop; reflexivity|reflexivity].
Defined.

(** ** Further facts *)

(** A group that is keyed [total] takes the place of the total: the layer
    object holds the group values and its own properties under one set of
    names, and the group values are copied last. *)
Example total_key_collision :
  prepare_groups colliding_rows = ["total"; "X"]%string
  ∧ (λ layer : Layer, layer !! "total"%string)
      <$> prepare_transformed default_labels colliding_rows
    = [Some (PNum (Num 5))]
  ∧ counted_total colliding_rows "A" = 8.
Proof. repeat split; vm_compute; reflexivity. Qed.

Lemma scale_domains (c : Chart) :
  band_domain (vertical_xScale c) = first_seen (name <$> data c)
  ∧ band_domain (vertical_xScale2 c) = first_seen (group <$> data c)
  ∧ band_domain (horizontal_yScale c) = first_seen (name <$> data c)
  ∧ band_domain (horizontal_yScale2 c) = first_seen (group <$> data c).
Proof. split_and!; apply ordinal_domain_first_seen. Qed.

(** On a row of the documented type the normaliser at the canonical field
    names rewrites every field with itself, and adds [topicName]. *)
Lemma cleanRow_row_object (StringToNumber : string → jsnum) (d : Row) :
  cleanRow StringToNumber default_labels (row_object d)
  = <["topicName" := VStr (group d)]> (row_object d)
  ∧ as_row (cleanRow StringToNumber default_labels (row_object d)) = Some d.
Proof.
  assert (cleanRow StringToNumber default_labels (row_object d)
          = <["topicName" := VStr (group d)]> (row_object d)) as Heq.
  { apply map_eq. intros k. unfold cleanRow, row_object, js_read. simpl.
    repeat (rewrite ?lookup_insert, ?lookup_singleton, ?lookup_empty;
            repeat case_decide; simplify_eq; simpl; try done). }
  split; [done|]. rewrite Heq. unfold as_row, js_read, row_object.
  repeat (rewrite ?lookup_insert, ?lookup_singleton, ?lookup_empty;
          repeat case_decide; simplify_eq; simpl; try done).
  by destruct d.
Qed.

(** * Further properties of the code *)

From Stdlib Require Import Lqa.

(** ** The band scales *)

Lemma math_max_ge (a b : Q) : (a <= math_max a b)%Q ∧ (b <= math_max a b)%Q.
Proof.
  unfold math_max. destruct (Qle_bool a b) eqn:Hab.
  - apply Qle_bool_iff in Hab. split; lra.
  - assert (¬ (a <= b)%Q) by (rewrite <- Qle_bool_iff; congruence). split; lra.
Qed.

Lemma paddingInner_bounds (s : band_scale) :
  (0 <= band_padding s)%Q →
  (0 <= paddingInner s)%Q ∧ (paddingInner s <= 1)%Q
  ∧ (paddingInner s <= band_padding s)%Q.
Proof.
  intros Hp. unfold paddingInner, math_min.
  destruct (Qle_bool 1 (band_padding s)) eqn:Hab.
  - apply Qle_bool_iff in Hab. split_and!; lra.
  - assert (¬ (1 <= band_padding s)%Q) by (rewrite <- Qle_bool_iff; congruence).
    split_and!; lra.
Qed.

Lemma band_lo_hi (s : band_scale) : band_lo s ≤ band_hi s.
Proof.
  unfold band_lo, band_hi, band_reverse. case_bool_decide; lia.
Qed.

Lemma inject_Z_le (a b : Z) : a ≤ b → (inject_Z a <= inject_Z b)%Q.
Proof. intros. by rewrite <- Zle_Qle. Qed.

Lemma inject_Z_sub (a b : Z) : (inject_Z (a - b) == inject_Z a - inject_Z b)%Q.
Proof. unfold Z.sub. rewrite inject_Z_plus, inject_Z_opp. lra. Qed.

Lemma Qfloor_ge (z : Z) (x : Q) : (inject_Z z <= x)%Q → z ≤ Qfloor x.
Proof. intros Hx. rewrite <- (Qfloor_Z z). by apply Qfloor_resp_le. Qed.

Lemma Qfloor_lt_le (z : Z) (x : Q) : (x < inject_Z z + 1)%Q → Qfloor x ≤ z.
Proof.
  intros Hx. pose proof (Qfloor_le x) as Hf.
  assert (inject_Z (Qfloor x) < inject_Z (z + 1))%Q as Hlt.
  { rewrite inject_Z_plus. change (inject_Z 1) with 1%Q. lra. }
  rewrite <- Zlt_Qlt in Hlt. lia.
Qed.

Lemma band_step_nonneg (s : band_scale) : 0 ≤ band_step s.
Proof.
  unfold band_step. apply Qfloor_ge.
  pose proof (band_lo_hi s) as Hlh. apply inject_Z_le in Hlh.
  rewrite inject_Z_sub. change (inject_Z 0) with 0%Q.
  set (D := math_max _ _).
  assert (1 <= D)%Q by apply math_max_ge.
  apply Qle_shift_div_l; [lra|]. lra.
Qed.

Lemma band_step_fits (s : band_scale) :
  (0 <= band_padding s)%Q →
  (inject_Z (band_step s) * (inject_Z (band_n s) - paddingInner s)
   <= inject_Z (band_hi s - band_lo s))%Q.
Proof.
  intros Hp. destruct (paddingInner_bounds s Hp) as (Hi0 & Hi1 & Hip).
  pose proof (band_step_nonneg s) as Hs. apply inject_Z_le in Hs.
  change (inject_Z 0) with 0%Q in Hs.
  pose proof (band_lo_hi s) as Hlh.
  assert (0 <= inject_Z (band_hi s - band_lo s))%Q as HW.
  { change 0%Q with (inject_Z 0). apply inject_Z_le. lia. }
  revert Hs. unfold band_step.
  set (D := math_max 1 (inject_Z (band_n s) - paddingInner s + paddingOuter s * 2)).
  set (W := inject_Z (band_hi s - band_lo s)) in *.
  assert (1 <= D)%Q as HD1 by apply math_max_ge.
  assert (inject_Z (band_n s) - paddingInner s + paddingOuter s * 2 <= D)%Q as HD2
    by apply math_max_ge.
  unfold paddingOuter in HD2.
  pose proof (Qfloor_le (W / D)) as Hfl.
  assert (W / D * D == W)%Q as Hdiv by (field; lra).
  generalize dependent (W / D)%Q. intros x; intros.
  generalize dependent (inject_Z (Qfloor x)). intros st; intros.
  generalize dependent (inject_Z (band_n s)). intros n; intros.
  generalize dependent (paddingInner s). intros pi; intros.
  generalize dependent (band_padding s). intros p; intros.
  clearbody D W. clear Hlh.
  destruct (Qlt_le_dec (n - pi) 0) as [Hneg|Hpos].
  - nra.
  - assert (st * (n - pi) <= x * (n - pi))%Q by nra.
    assert (x * (n - pi) <= x * D)%Q by nra.
    lra.
Qed.

Lemma band_start_ge (s : band_scale) :
  (0 <= band_padding s)%Q → band_lo s ≤ band_start s.
Proof.
  intros Hp. pose proof (band_step_fits s Hp) as Hfit.
  unfold band_start, js_round. apply Qfloor_ge. lra.
Qed.

Lemma bandwidth_bounds (s : band_scale) :
  (0 <= band_padding s)%Q → 0 ≤ bandwidth s ≤ band_step s.
Proof.
  intros Hp. destruct (paddingInner_bounds s Hp) as (Hi0 & Hi1 & _).
  pose proof (band_step_nonneg s) as Hs. apply inject_Z_le in Hs.
  change (inject_Z 0) with 0%Q in Hs.
  unfold bandwidth, js_round. split.
  - apply Qfloor_ge. change (inject_Z 0) with 0%Q. nra.
  - apply Qfloor_lt_le. nra.
Qed.

Lemma band_last_le (s : band_scale) :
  (0 <= band_padding s)%Q → 1 ≤ band_n s →
  band_start s + band_step s * (band_n s - 1) ≤ band_hi s.
Proof.
  intros Hp Hn. destruct (paddingInner_bounds s Hp) as (Hi0 & Hi1 & _).
  pose proof (band_step_fits s Hp) as Hfit.
  pose proof (band_step_nonneg s) as Hs. apply inject_Z_le in Hs.
  change (inject_Z 0) with 0%Q in Hs.
  apply inject_Z_le in Hn. change (inject_Z 1) with 1%Q in Hn.
  assert (band_start s ≤ band_hi s - band_step s * (band_n s - 1)); [|lia].
  unfold band_start, js_round. apply Qfloor_lt_le.
  rewrite inject_Z_sub in Hfit.
  repeat (rewrite inject_Z_sub || rewrite inject_Z_mult).
  change (inject_Z 1) with 1%Q.
  nra.
Qed.

Lemma indexOf_Some (l : list string) (x : string) (i : nat) :
  indexOf l x = Some i → l !! i = Some x.
Proof.
  revert i. induction l as [|y l IH]; intros i; simpl; [done|].
  destruct (decide (x = y)) as [->|Hne].
  - by intros [= <-].
  - destruct (indexOf l x) as [j|]; simpl; [|done].
    intros [= <-]. simpl. by apply IH.
Qed.

(** The position of a key of the domain is the start plus a whole number
    of steps. *)
Lemma band_call_Some (s : band_scale) (key : string) (p : Z) :
  band_call s key = Some p →
  ∃ i : nat, (i < length (band_domain s))%nat
             ∧ p = band_start s + band_step s * Z.of_nat i
             ∧ band_domain s !! (if band_reverse s
                                 then (length (band_domain s) - S i)%nat
                                 else i) = Some key.
Proof.
  unfold band_call, band_values.
  destruct (indexOf (band_domain s) key) as [j|] eqn:Hj; simpl; [|done].
  apply indexOf_Some in Hj. pose proof (lookup_lt_Some _ _ _ Hj) as Hlt.
  set (f := λ i : nat, band_start s + band_step s * Z.of_nat i).
  destruct (band_reverse s).
  - rewrite reverse_lookup by (by rewrite length_fmap, length_seq).
    rewrite length_fmap, length_seq, list_lookup_fmap.
    rewrite lookup_seq_lt by lia. simpl. intros [= <-].
    exists (length (band_domain s) - S j)%nat. split_and!; [lia|done|].
    replace (length (band_domain s) - S (length (band_domain s) - S j))%nat
      with j by lia. done.
  - rewrite list_lookup_fmap, lookup_seq_lt by done. simpl. intros [= <-].
    by exists j.
Qed.

(** Every band starts inside the range of its scale. *)
Lemma band_call_range (s : band_scale) (key : string) (p : Z) :
  (0 <= band_padding s)%Q →
  band_call s key = Some p → band_lo s ≤ p ≤ band_hi s.
Proof.
  intros Hp (i & Hi & -> & _)%band_call_Some.
  pose proof (band_start_ge s Hp) as Hstart.
  pose proof (band_step_nonneg s) as Hstep.
  assert (1 ≤ band_n s) as Hn by (unfold band_n; lia).
  pose proof (band_last_le s Hp Hn) as Hlast.
  unfold band_n in *. split; [nia|]. 
  assert (band_step s * Z.of_nat i
          ≤ band_step s * (Z.of_nat (length (band_domain s)) - 1)) by nia.
  lia.
Qed.

Lemma band_lo_hi_forward (s : band_scale) :
  band_r0 s ≤ band_r1 s → band_lo s = band_r0 s ∧ band_hi s = band_r1 s.
Proof.
  intros Hr. unfold band_lo, band_hi, band_reverse.
  by rewrite bool_decide_eq_false_2 by lia.
Qed.

Lemma band_lo_hi_backward (s : band_scale) :
  band_r1 s ≤ band_r0 s → band_lo s = band_r1 s ∧ band_hi s = band_r0 s.
Proof.
  intros Hr. unfold band_lo, band_hi, band_reverse.
  case_bool_decide; [done|]. split; lia.
Qed.

(** X18: the domain of each band scale that [buildScales] builds holds the
    distinct category keys, or the distinct group keys, of the data, each
    once, in first-seen order. *)
Theorem buildScales_domains (c : Chart) :
  if isHorizontal (config c) then
    ∃ y1 y2, yScale (buildScales c) = Some (BandScale y1)
             ∧ yScale2 (buildScales c) = Some y2
             ∧ band_domain y1 = first_seen (name <$> data c)
             ∧ band_domain y2 = first_seen (group <$> data c)
             ∧ NoDup (band_domain y1) ∧ NoDup (band_domain y2)
  else
    ∃ x1 x2, xScale (buildScales c) = Some (BandScale x1)
             ∧ xScale2 (buildScales c) = Some x2
             ∧ band_domain x1 = first_seen (name <$> data c)
             ∧ band_domain x2 = first_seen (group <$> data c)
             ∧ NoDup (band_domain x1) ∧ NoDup (band_domain x2).
Proof.
  destruct (scale_domains c) as (Hx1 & Hx2 & Hy1 & Hy2).
  unfold buildScales. destruct (isHorizontal (config c)); simpl.
  - exists (horizontal_yScale c), (horizontal_yScale2 c).
    rewrite Hy1, Hy2. split_and!; try done; apply NoDup_first_seen_from.
  - exists (vertical_xScale c), (vertical_xScale2 c).
    rewrite Hx1, Hx2. split_and!; try done; apply NoDup_first_seen_from.
Qed.

(** ** The hit-testers, further *)

(** A scan that no row passes pushes nothing. *)
Lemma scan_layers_none (accept : Row → bool) (layers : list Layer)
    (rowss : list (list Row)) :
  Forall2 (λ (layer : Layer) rows, layer_values layer = Some rows)
          layers rowss →
  (∀ d, accept d = false) →
  first_or_undefined (scan_layers accept layers []) = Return None.
Proof.
  intros Hrows Hnone.
  destruct (scan_layers_first_match accept layers rowss [] Hrows)
    as (hits & -> & Hfirst).
  simpl. destruct (head hits) as [h|]; [|done].
  destruct Hfirst as (? & ? & ? & ? & _ & _ & _ & Hh & _).
  by rewrite Hnone in Hh.
Qed.

(** What a hit shows of the rows that the scan went over. *)
Lemma scan_layers_hit (accept : Row → bool) (layers : list Layer)
    (rowss : list (list Row)) (h : Hit) :
  Forall2 (λ (layer : Layer) rows, layer_values layer = Some rows)
          layers rowss →
  first_or_undefined (scan_layers accept layers []) = Return (Some h) →
  ∃ pre post,
    hit_values h ∈ rowss
    ∧ hit_values h = pre ++ hit_row h :: post
    ∧ Forall (λ d, accept d = false) pre
    ∧ accept (hit_row h) = true
    ∧ hit_key h = name (hit_row h).
Proof.
  intros Hrows.
  destruct (scan_layers_first_match accept layers rowss [] Hrows)
    as (hits & -> & Hfirst).
  simpl. intros [= Hh]. rewrite Hh in Hfirst.
  destruct Hfirst as (before & pre & post & after & -> & _ & Hpre & Hacc & Hv & Hk).
  exists pre, post. split_and!; try done.
  - rewrite Hv. apply elem_of_app. right. by left.
  - eapply Forall_impl; [done|]. simpl. intros d Hd.
    by destruct (accept d).
Qed.

(** A row that a scan of the layers of a render finds. *)
Lemma scan_hit_rows (c : Chart) (_data : list Row) (accept : Row → bool)
    (h : Hit) :
  isLoading (config c) = false →
  first_or_undefined (scan_layers accept (layers (render _data c)) [])
  = Return (Some h) →
  hit_row h ∈ _data
  ∧ hit_key h = name (hit_row h)
  ∧ hit_values h = category_rows _data (hit_key h).
Proof.
  intros Hl Hhit.
  pose proof (render_layer_values _data c Hl) as Hrows.
  assert (∃ pre post, hit_values h ∈ category_rows _data <$> first_seen (name <$> _data)
                      ∧ hit_values h = pre ++ hit_row h :: post
                      ∧ hit_key h = name (hit_row h))
    as (pre & post & Hin & Hv & Hk).
  { destruct (scan_layers_hit _ _ _ h Hrows Hhit)
      as (pre & post & ? & ? & _ & _ & ?); by exists pre, post. }
  apply list_elem_of_fmap in Hin as (cat & Hcat & _).
  assert (hit_row h ∈ category_rows _data cat) as Hrow.
  { rewrite <- Hcat, Hv. apply elem_of_app. right. by left. }
  apply category_rows_name in Hrow as [Hd Hn].
  split_and!; try done. by rewrite Hk, Hn.
Qed.

(** X11: whatever the field names, the scales and the pointer, a row that
    either hit-tester returns on the layers of a render is a row of the
    data, its [key] is its category, and its [values] are all the rows of
    that category in input order. *)
Theorem hit_is_sound (c : Chart) (_data : list Row) (lb : Labels)
    (m : Margin) (s1 s2 : band_scale) (mouse : Z) (h : Hit) :
  isLoading (config c) = false →
  getNearestDataPoint lb m s1 s2 (layers (render _data c)) mouse
  = Return (Some h)
  ∨ getNearestDataPoint2 m s1 (layers (render _data c)) mouse
    = Return (Some h) →
  hit_row h ∈ _data
  ∧ hit_key h = name (hit_row h)
  ∧ hit_values h = category_rows _data (hit_key h).
Proof.
  intros Hl [Hhit|Hhit]; by eapply scan_hit_rows.
Qed.

Lemma hit_is_sound_witness :
  hit_row sample_hit ∈ scenario
  ∧ hit_key sample_hit = name (hit_row sample_hit)
  ∧ hit_values sample_hit = category_rows scenario (hit_key sample_hit).
Proof.
  apply (hit_is_sound sample_horizontal_chart scenario default_labels
           (margin (config sample_horizontal_chart))
           sample_yScale sample_yScale 260 sample_hit).
  - reflexivity.
  - right. by vm_compute.
Defined.

Lemma accept_y_name (m : Margin) (s : band_scale) (mouseY : Z) (d d' : Row) :
  name d = name d' → accept_y m s mouseY d = accept_y m s mouseY d'.
Proof. intros Hn. unfold accept_y. by rewrite Hn. Qed.

(** X12: the horizontal hit-tester tests the category only: the row it
    returns is the first row of its category, and every row of that
    category passes the test, so the groups of a category cannot be told
    apart by the pointer. *)
Theorem horizontal_hit_is_first_row (c : Chart) (_data : list Row)
    (m : Margin) (s : band_scale) (mouseY : Z) (h : Hit) :
  isLoading (config c) = false →
  getNearestDataPoint2 m s (layers (render _data c)) mouseY = Return (Some h) →
  head (category_rows _data (name (hit_row h))) = Some (hit_row h)
  ∧ ∀ d, d ∈ _data → name d = name (hit_row h) →
         accept_y m s mouseY d = true.
Proof.
  intros Hl Hhit.
  destruct (scan_hit_rows c _data _ h Hl Hhit) as (Hd & Hk & Hv).
  destruct (scan_layers_hit _ _ _ h (render_layer_values _data c Hl) Hhit)
    as (pre & post & _ & Hsplit & Hpre & Hacc & _).
  rewrite Hk in Hv. rewrite Hv in Hsplit.
  assert (pre = []) as ->.
  { destruct pre as [|d pre]; [done|]. exfalso.
    apply Forall_cons in Hpre as [Hfalse _].
    assert (d ∈ category_rows _data (name (hit_row h))) as Hin
      by (rewrite Hsplit; by left).
    apply category_rows_name in Hin as [_ Hn].
    rewrite (accept_y_name m s mouseY d (hit_row h) Hn) in Hfalse.
    congruence. }
  split; [by rewrite Hsplit|].
  intros d _ Hn. by rewrite (accept_y_name m s mouseY d (hit_row h) Hn).
Qed.

Lemma horizontal_hit_is_first_row_witness :
  head (category_rows scenario (name (hit_row sample_hit)))
  = Some (hit_row sample_hit)
  ∧ ∀ d, d ∈ scenario → name d = name (hit_row sample_hit) →
         accept_y (margin (config sample_horizontal_chart)) sample_yScale
                  260 d = true.
Proof.
  apply (horizontal_hit_is_first_row sample_horizontal_chart scenario
           (margin (config sample_horizontal_chart)) sample_yScale 260
           sample_hit).
  - reflexivity.
  - by vm_compute.
Defined.

Lemma accept_x_before (lb : Labels) (m : Margin) (s1 s2 : band_scale)
    (mouseX : Z) d :
  (0 <= band_padding s1)%Q → (0 <= band_padding s2)%Q →
  band_lo s1 = 0 → band_lo s2 = 0 →
  mouseX < left m →
  accept_x lb m s1 s2 mouseX d = false.
Proof.
  intros Hp1 Hp2 Hlo1 Hlo2 Hm.
  destruct (accept_x lb m s1 s2 mouseX d) eqn:Hacc; [exfalso|done].
  apply accept_x_spec in Hacc as (p1 & p2 & H1 & H2 & Hle & _).
  apply band_call_range in H1; [|done]. apply band_call_range in H2; [|done].
  lia.
Qed.

Lemma accept_y_before (m : Margin) (s : band_scale) (mouseY : Z) d :
  (0 <= band_padding s)%Q → band_lo s = 0 →
  mouseY < bottom m →
  accept_y m s mouseY d = false.
Proof.
  intros Hp Hlo Hm.
  destruct (accept_y m s mouseY d) eqn:Hacc; [exfalso|done].
  apply accept_y_spec in Hacc as (p & H1 & Hle & _).
  apply band_call_range in H1; [|done]. lia.
Qed.

(** X13: on a chart whose margins fit its size and whose padding between
    groups is not negative, whatever the field names, a pointer before the
    drawable area (x less than the left margin when vertical, y less than
    the bottom margin when horizontal) is handed no row: the hit-tester
    returns [undefined]. *)
Theorem pointer_before_bands (c : Chart) (_data : list Row) (mouse : Z) :
  isLoading (config c) = false →
  (0 <= betweenGroupsPadding (config c))%Q →
  left (margin (config c)) + right (margin (config c)) ≤ width (config c) →
  top (margin (config c)) + bottom (margin (config c)) ≤ height (config c) →
  if isHorizontal (config c) then
    mouse < bottom (margin (config c)) →
    ∃ y1, yScale (render _data c) = Some (BandScale y1)
          ∧ getNearestDataPoint2 (margin (config (render _data c))) y1
                                 (layers (render _data c)) mouse
            = Return None
  else
    mouse < left (margin (config c)) →
    ∃ x1 x2, xScale (render _data c) = Some (BandScale x1)
             ∧ xScale2 (render _data c) = Some x2
             ∧ getNearestDataPoint (labels (config (render _data c)))
                                   (margin (config (render _data c))) x1 x2
                                   (layers (render _data c)) mouse
               = Return None.
Proof.
  intros Hl Hg Hw Hh.
  pose proof (render_layer_values _data c Hl) as Hrows.
  destruct (isHorizontal (config c)) eqn:Hor; intros Hm.
  - destruct (render_horizontal_scales _data c Hl Hor) as [Hy _].
    eexists. split; [exact Hy|].
    rewrite render_config. unfold getNearestDataPoint2.
    eapply scan_layers_none; [done|]. intros d.
    apply accept_y_before; try done.
    apply band_lo_hi_backward. simpl. lia.
  - destruct (render_vertical_scales _data c Hl Hor) as [Hx1 Hx2].
    do 2 eexists. split_and!; [exact Hx1|exact Hx2|].
    rewrite render_config. unfold getNearestDataPoint.
    eapply scan_layers_none; [done|]. intros d.
    set (x1 := vertical_xScale _).
    assert (0 <= band_padding x1)%Q as Hp1 by done.
    apply accept_x_before; try done.
    + apply band_lo_hi_forward. simpl. lia.
    + apply band_lo_hi_forward. simpl.
      by destruct (bandwidth_bounds x1 Hp1).
Qed.

Lemma pointer_before_bands_witness :
  ∃ x1 x2,
    xScale (render scenario sample_chart) = Some (BandScale x1)
    ∧ xScale2 (render scenario sample_chart) = Some x2
    ∧ getNearestDataPoint (labels (config (render scenario sample_chart)))
                          (margin (config (render scenario sample_chart)))
                          x1 x2 (layers (render scenario sample_chart)) 10
      = Return None.
Proof.
  apply (pointer_before_bands sample_chart scenario 10); by vm_compute.
Defined.

(** ** uniq *)

Lemma first_seen_from_NoDup {A} `{EqDecision A} (seen l : list A) :
  NoDup l → (∀ x, x ∈ l → x ∉ seen) → first_seen_from seen l = l.
Proof.
  revert seen. induction l as [|x l IH]; intros seen Hnd Hs; [done|].
  apply NoDup_cons in Hnd as [Hx Hnd]. simpl.
  rewrite decide_False by (apply Hs; by left). f_equal.
  apply IH; [done|]. intros y Hy. rewrite not_elem_of_cons. split.
  - intros ->. done.
  - apply Hs. by right.
Qed.

(** X1: on strings, as the group keys are, [uniq] is idempotent, leaves a
    list without repetition as it is, and returns the empty list for the
    empty list only. *)
Theorem uniq_idempotent (l : list string) :
  uniq (uniq l) = uniq l
  ∧ (NoDup l → uniq l = l)
  ∧ (uniq l = [] ↔ l = []).
Proof.
  rewrite !uniq_first_seen. split_and!.
  - apply first_seen_from_NoDup; [apply NoDup_first_seen_from|].
    intros x _. apply not_elem_of_nil.
  - intros Hnd. apply first_seen_from_NoDup; [done|].
    intros x _. apply not_elem_of_nil.
  - split; [|by intros ->]. destruct l as [|x l]; [done|].
    intros Hnil. assert (x ∈ first_seen (x :: l)) as Hx
      by (apply elem_of_first_seen; by left).
    rewrite Hnil in Hx. by apply elem_of_nil in Hx.
Qed.

(** ** The grouping is a partition *)

Lemma concat_filter_cons {A K} `{EqDecision K} (key : A → K)
    (f : K → list A) (x : A) (ks : list K) :
  NoDup ks → key x ∈ ks →
  concat ((λ k, if decide (key x = k) then x :: f k else f k) <$> ks)
  ≡ₚ x :: concat (f <$> ks).
Proof.
  induction ks as [|k ks IH]; intros Hnd Hin; [by apply elem_of_nil in Hin|].
  apply NoDup_cons in Hnd as [Hk Hnd]. simpl.
  destruct (decide (key x = k)) as [Heq|Hne].
  - simpl. f_equiv. f_equiv.
    apply reflexive_eq. f_equal. apply list_fmap_ext. intros i k' Hk'.
    rewrite decide_False; [done|]. intros Heq'. apply Hk.
    rewrite <- Heq, Heq'. by eapply list_elem_of_lookup_2.
  - apply elem_of_cons in Hin as [?|Hin]; [done|].
    rewrite (IH Hnd Hin). by rewrite Permutation_middle.
Qed.

Lemma partition_by_key {A K} `{EqDecision K} (key : A → K)
    (l : list A) (ks : list K) :
  NoDup ks → (∀ x, x ∈ l → key x ∈ ks) →
  concat ((λ k, filter (λ x, key x = k) l) <$> ks) ≡ₚ l.
Proof.
  intros Hnd. induction l as [|x l IH]; intros Hks.
  - clear. induction ks as [|k ks IHk]; [done|]. simpl. by rewrite IHk.
  - transitivity (x :: concat ((λ k, filter (λ x, key x = k) l) <$> ks)).
    + rewrite <- (concat_filter_cons key _ x ks Hnd) by (apply Hks; by left).
      done.
    + f_equiv. apply IH. intros y Hy. apply Hks. by right.
Qed.

Lemma omap_layer_values (layers : list Layer) (rowss : list (list Row)) :
  Forall2 (λ (layer : Layer) rows, layer_values layer = Some rows)
          layers rowss →
  omap layer_values layers = rowss.
Proof.
  induction 1 as [|layer rows layers rowss Hv _ IH]; [done|].
  simpl. rewrite Hv. simpl. f_equal. exact IH.
Qed.

(** X2: the rows that the layers of a render hold are the rows of the
    input, category by category in first-seen order: none is lost, none is
    held twice, and each sits in the layer of its own category. *)
Theorem grouping_is_partition (c : Chart) (_data : list Row) :
  isLoading (config c) = false →
  omap layer_values (layers (render _data c))
  = category_rows _data <$> first_seen (name <$> _data)
  ∧ concat (omap layer_values (layers (render _data c))) ≡ₚ _data
  ∧ ∀ d, d ∈ _data →
         ∃ rows, rows ∈ omap layer_values (layers (render _data c))
                 ∧ d ∈ rows ∧ ∀ d', d' ∈ rows → name d' = name d.
Proof.
  intros Hl.
  rewrite (omap_layer_values _ _ (render_layer_values _data c Hl)).
  split_and!; [done| |].
  - apply (partition_by_key name); [apply NoDup_first_seen_from|].
    intros d Hd. apply elem_of_first_seen. by apply list_elem_of_fmap_2.
  - intros d Hd. exists (category_rows _data (name d)). split_and!.
    + apply list_elem_of_fmap_2, elem_of_first_seen.
      by apply list_elem_of_fmap_2.
    + by apply category_rows_name.
    + intros d' Hd'. by apply category_rows_name in Hd' as [_ ?].
Qed.

Lemma grouping_is_partition_witness :
  concat (omap layer_values (layers (render scenario sample_chart)))
  ≡ₚ scenario.
Proof.
  apply (grouping_is_partition sample_chart scenario). reflexivity.
Defined.

(** ** buildLayers *)

Lemma buildLayer_fold_exact (groups : list string) (item ret : Layer) k :
  fold_left (λ ret key, js_set key (js_get item key) ret)
            groups ret !! k
  = if decide (k ∈ groups ∧ k ≠ "__proto__"%string)
    then Some (js_get item k)
    else ret !! k.
Proof.
  revert ret. induction groups as [|g groups IH]; intros ret.
  - cbn [fold_left].
    destruct (decide _) as [[H _]|]; [by apply elem_of_nil in H|done].
  - cbn [fold_left]. rewrite IH.
    destruct (decide (k ∈ groups ∧ k ≠ "__proto__"%string)) as [[Hk Hp]|Hno];
      destruct (decide (k ∈ g :: groups ∧ k ≠ "__proto__"%string))
        as [[Hk' Hp']|Hno'].
    + done.
    + exfalso. apply Hno'. split; [by right|done].
    + apply elem_of_cons in Hk' as [->|Hk']; [|exfalso; by apply Hno].
      by rewrite js_set_lookup_eq.
    + destruct (decide (g = k)) as [->|Hne].
      * destruct (decide (k = "__proto__"%string)) as [->|Hp];
          [apply js_set_lookup_proto|].
        exfalso. apply Hno'. split; [by left|done].
      * by rewrite js_set_lookup_ne.
Qed.

(** What [buildLayers] does to a layer, property by property. *)
Lemma buildLayer_exact (groups : list string) (item : Layer) (k : string) :
  k ≠ "__proto__"%string →
  buildLayer groups item !! k
  = match item !! k with
    | Some v => Some v
    | None => if decide (k ∈ groups)
              then Some (if decide (k ∈ object_prototype)
                         then PInherited k else PUndef)
              else None
    end.
Proof.
  intros Hp. unfold buildLayer.
  rewrite object_assign_lookup, lookup_union, buildLayer_fold_exact,
    lookup_empty by done.
  unfold js_get. destruct (item !! k) as [v|]; simpl.
  - by case_decide.
  - destruct (decide (k ∈ groups)) as [Hk|Hk].
    + by rewrite decide_True.
    + rewrite decide_False; [done|]. by intros [? _].
Qed.

(** X3: [buildLayers] keeps every property of a layer and adds, for each
    group key that the layer lacks, that key with what reading it on the
    layer gives: the value [undefined], or, when the key is a name that
    [Object.prototype] answers ([toString], [constructor] and the like),
    the inherited member; it adds nothing else, and [__proto__] is never a
    property of the result. *)
Theorem buildLayer_completes (groups : list string) (item : Layer)
    (k : string) :
  buildLayer groups item !! "__proto__"%string = None
  ∧ (k ≠ "__proto__"%string →
     (∀ v, item !! k = Some v → buildLayer groups item !! k = Some v)
     ∧ (item !! k = None → k ∈ groups →
        (k ∉ object_prototype → buildLayer groups item !! k = Some PUndef)
        ∧ (k ∈ object_prototype →
           buildLayer groups item !! k = Some (PInherited k)))
     ∧ (item !! k = None → k ∉ groups →
        buildLayer groups item !! k = None)).
Proof.
  split; [apply object_assign_proto|].
  intros Hp. rewrite buildLayer_exact by done. split_and!.
  - by intros v ->.
  - intros -> Hk. rewrite decide_True by done.
    split; intros Ho; [by rewrite decide_False|by rewrite decide_True].
  - intros -> Hk. by rewrite decide_False.
Qed.

Lemma buildLayer_completes_witness :
  buildLayer ["X"; "toString"]%string {[ "X" := PNum (Num 1) ]}
    !! "toString"%string
  = Some (PInherited "toString").
Proof.
  apply (proj1 (proj2 (proj2 (buildLayer_completes
                                ["X"; "toString"]%string
                                {[ "X" := PNum (Num 1) ]}
                                "toString"%string)
                             ltac:(discriminate))));
    [reflexivity|set_solver|].
  unfold object_prototype. set_solver.
Defined.

(** ** The value of a group: the last row wins *)

Lemma layer_group_lookup (lb : Labels) (groups : list string) cat
    (values : list Row) g :
  g ≠ "total"%string → g ≠ "key"%string →
  g ≠ "values"%string → g ≠ "__proto__"%string →
  layer_of_entry lb groups (cat, values) !! g
  = if str_truthy g
    then PNum <$> (value <$> last (filter (λ d, at_groupLabel lb d = g)
                                          values))
    else None.
Proof.
  intros Ht Hk Hv Hp. unfold layer_of_entry. simpl.
  rewrite object_assign_lookup by done.
  rewrite lookup_union, lookup_fmap, rollup_lookup by done.
  rewrite rollup_loop_lookup, lookup_empty by done.
  rewrite lookup_insert_ne, lookup_singleton_ne by done.
  destruct (str_truthy g); [|done].
  by destruct (last _).
Qed.

Lemma str_truthy_nonempty (g : string) : g ≠ ""%string → str_truthy g = true.
Proof. by destruct g. Qed.

(** X4: when the group label is not "name", in the layers of a render a
    group key of the data that is not empty and no property name of the
    layer holds the value of the last row of the category with that group;
    when the category has no such row it holds [undefined], or the
    inherited member if the key is a name that [Object.prototype]
    answers; a key that is no group of the data is no property. *)
Theorem last_row_wins (c : Chart) (_data : list Row) (i : nat)
    (cat g : string) :
  isLoading (config c) = false →
  groupLabel (labels (config c)) ≠ "name"%string →
  first_seen (name <$> _data) !! i = Some cat →
  g ≠ "total"%string → g ≠ "key"%string →
  g ≠ "values"%string → g ≠ "__proto__"%string → g ≠ ""%string →
  ∃ layer : Layer,
    layers (render _data c) !! i = Some layer
    ∧ layer !! g
      = if decide (g ∈ group <$> _data)
        then Some (from_option PNum
                     (if decide (g ∈ object_prototype)
                      then PInherited g else PUndef)
                     (group_value _data cat g))
        else None.
Proof.
  intros Hl Hlb Hi Ht Hk Hv Hp He.
  rewrite render_layers by done. unfold buildLayers.
  rewrite prepare_transformed_spec, <- list_fmap_compose, list_lookup_fmap, Hi.
  simpl. eexists. split; [done|].
  rewrite buildLayer_exact, layer_group_lookup by done.
  rewrite str_truthy_nonempty by done.
  rewrite (filter_same _ (λ d, group d = g))
    by (intros d _; by rewrite at_groupLabel_group).
  fold (group_value _data cat g).
  assert (prepare_groups _data = first_seen (group <$> _data)) as ->
    by apply uniq_first_seen.
  destruct (group_value _data cat g) as [v|] eqn:Hgv; simpl.
  - rewrite decide_True; [done|].
    unfold group_value in Hgv.
    destruct (last _) as [d|] eqn:Hlast; [|done].
    apply last_Some_elem_of, list_elem_of_filter in Hlast as [<- Hd].
    apply category_rows_name in Hd as [Hd _]. by apply list_elem_of_fmap_2.
  - destruct (decide (g ∈ group <$> _data)) as [Hin|Hout].
    + rewrite decide_True; [done|]. by apply elem_of_first_seen.
    + rewrite decide_False; [done|]. intros Hin.
      apply Hout. by apply elem_of_first_seen.
Qed.

Lemma last_row_wins_witness :
  ∃ layer : Layer,
    layers (render scenario sample_chart) !! 1%nat = Some layer
    ∧ layer !! "Y"%string
      = if decide ("Y"%string ∈ group <$> scenario)
        then Some (from_option PNum
                     (if decide ("Y"%string ∈ object_prototype)
                      then PInherited "Y" else PUndef)
                     (group_value scenario "B" "Y"))
        else None.
Proof.
  apply (last_row_wins sample_chart scenario 1%nat "B"%string "Y"%string);
    (reflexivity || discriminate).
Defined.

(** ** The total as the sum of the rows *)

Lemma row_total_app (l1 l2 : list Row) :
  row_total (l1 ++ l2) = row_total l1 + row_total l2.
Proof.
  unfold row_total. induction l1 as [|d l1 IH]; [done|].
  cbn [foldr app]. rewrite IH. lia.
Qed.

Lemma row_total_perm (l1 l2 : list Row) :
  l1 ≡ₚ l2 → row_total l1 = row_total l2.
Proof.
  induction 1 as [|d l1 l2 _ IH|d d' l|l1 l2 l3 _ IH1 _ IH2];
    unfold row_total in *; cbn [foldr]; lia.
Qed.

Lemma fold_left_sum {A} (f : A → Z) (l : list A) (acc : Z) :
  fold_left (λ acc x, acc + f x) l acc = acc + foldr (λ x acc, f x + acc) 0 l.
Proof.
  revert acc. induction l as [|x l IH]; intros acc; simpl; [lia|].
  rewrite IH. lia.
Qed.

Lemma filter_group_NoDup (rows : list Row) (g : string) :
  NoDup (group <$> rows) →
  filter (λ d, group d = g) rows = []
  ∨ ∃ d, filter (λ d, group d = g) rows = [d] ∧ group d = g.
Proof.
  induction rows as [|d rows IH]; intros Hnd; [by left|].
  rewrite fmap_cons in Hnd. apply NoDup_cons in Hnd as [Hd Hnd].
  rewrite filter_cons. destruct (decide (group d = g)) as [Hg|Hg].
  - right. exists d. split; [|done]. f_equal.
    apply filter_none. intros d' Hd' Hg'. apply Hd.
    rewrite Hg, <- Hg'. by apply list_elem_of_fmap_2.
  - by apply IH.
Qed.

Lemma counted_total_rows (data : list Row) cat :
  NoDup (group <$> category_rows data cat) →
  counted_total data cat = row_total (category_rows data cat).
Proof.
  intros Hnd. unfold counted_total. rewrite fold_left_sum, Z.add_0_l.
  assert (concat ((λ g, filter (λ d, group d = g) (category_rows data cat))
                    <$> first_seen (group <$> data))
          ≡ₚ category_rows data cat) as Hperm.
  { apply (partition_by_key group); [apply NoDup_first_seen_from|].
    intros d Hd. apply category_rows_name in Hd as [Hd _].
    apply elem_of_first_seen. by apply list_elem_of_fmap_2. }
  rewrite <- (row_total_perm _ _ Hperm). clear Hperm.
  induction (first_seen (group <$> data)) as [|g gs IH]; [done|].
  cbn [foldr fmap list_fmap concat]. rewrite row_total_app, <- IH. f_equal.
  unfold group_value.
  destruct (filter_group_NoDup (category_rows data cat) g Hnd)
    as [->|(d & -> & Hg)]; [done|].
  simpl. unfold row_total. simpl. rewrite Hg. lia.
Qed.

(** X5: when the group label is not "name", no two rows of a category
    have the same group key, and none has a reserved one, the total of its
    Layer is the sum of the values of its rows, a row counting for 0 when
    its group key is empty or its value NaN. *)
Theorem total_is_row_sum (lb : Labels) (data : list Row) (i : nat)
    (cat : string) :
  groupLabel lb ≠ "name"%string →
  first_seen (name <$> data) !! i = Some cat →
  (∀ d, d ∈ data → name d = cat → ¬ reserved_key (group d)) →
  NoDup (group <$> category_rows data cat) →
  ∃ layer : Layer,
    prepare_transformed lb data !! i = Some layer
    ∧ layer !! "total"%string
      = Some (PNum (Num (row_total (category_rows data cat)))).
Proof.
  intros Hlb Hi Hres Hnd.
  rewrite prepare_transformed_spec, list_lookup_fmap, Hi. simpl.
  eexists. split; [done|].
  rewrite layer_total.
  - rewrite total_counted; [|done|by eapply category_rows_nonempty,
                                       list_elem_of_lookup_2|done].
    do 3 f_equal. by apply counted_total_rows.
  - intros d Hd. rewrite at_groupLabel_group by done.
    intros Hg. apply category_rows_name in Hd as [Hd Hn].
    apply (Hres d Hd Hn). by left.
Qed.

Lemma total_is_row_sum_witness :
  ∃ layer : Layer,
    prepare_transformed default_labels scenario !! 1%nat = Some layer
    ∧ layer !! "total"%string
      = Some (PNum (Num (row_total (category_rows scenario "B")))).
Proof.
  apply (total_is_row_sum default_labels scenario 1%nat "B"%string).
  - discriminate.
  - reflexivity.
  - intros d Hd Hn [Hg|[Hg|Hg]]; revert Hd Hn Hg; unfold scenario;
      rewrite !elem_of_cons, elem_of_nil;
      intros [->|[->|[->|[]]]]; simpl; discriminate.
  - apply NoDup_singleton.
Defined.

(** X6: when the group label is not "name", a group that is keyed [total]
    or [key] takes the place of that property of the Layer: the property
    then holds the value of the last row of the category with this group,
    not the total or the category. *)
Theorem layer_property_shadowed (lb : Labels) (data : list Row) (i : nat)
    (cat g : string) (v : jsnum) :
  groupLabel lb ≠ "name"%string →
  first_seen (name <$> data) !! i = Some cat →
  g = "total"%string ∨ g = "key"%string →
  group_value data cat g = Some v →
  ∃ layer : Layer,
    prepare_transformed lb data !! i = Some layer
    ∧ layer !! g = Some (PNum v).
Proof.
  intros Hlb Hi Hg Hv.
  rewrite prepare_transformed_spec, list_lookup_fmap, Hi. simpl.
  eexists. split; [done|]. unfold layer_of_entry. simpl.
  rewrite object_assign_lookup by (destruct Hg as [->| ->]; done).
  apply lookup_union_Some_l.
  rewrite lookup_fmap, rollup_lookup, rollup_loop_lookup
    by (destruct Hg as [->| ->]; done).
  rewrite (filter_same _ (λ d, group d = g))
    by (intros d _; by rewrite at_groupLabel_group).
  unfold group_value in Hv.
  destruct (last _) as [d|]; [|done]. injection Hv as <-.
  by destruct Hg as [->| ->].
Qed.

Lemma layer_property_shadowed_witness :
  ∃ layer : Layer,
    prepare_transformed default_labels colliding_rows !! 0%nat = Some layer
    ∧ layer !! "total"%string = Some (PNum (Num 5)).
Proof.
  apply (layer_property_shadowed default_labels colliding_rows 0%nat
           "A"%string);
    [discriminate|reflexivity|by left|reflexivity].
Defined.

(** ** getYMax *)

(** X7: [getYMax] is undefined exactly when no value is a number (an
    empty dataset included); when it is defined it is a number and no
    value of the data exceeds it. *)
Theorem getYMax_covers (data : list Row) :
  (getYMax data = None ↔ ∀ d, d ∈ data → value d = NaN)
  ∧ ∀ m, getYMax data = Some m →
      ∃ z, m = Num z ∧ ∀ d v, d ∈ data → value d = Num v → v ≤ z.
Proof.
  destruct (decide (data ≠ [] ∧ all_zero data)) as [[Hne Hall]|Hnot].
  - rewrite getYMax_all_zero by done. split.
    + split; [done|]. intros Hnan. destruct data as [|d data]; [done|].
      apply Forall_cons in Hall as [Hd _].
      rewrite (Hnan d) in Hd by (by left). done.
    + intros m [= <-]. exists 1. split; [done|]. intros d v Hd Hv.
      apply (proj1 (Forall_forall _ _) Hall) in Hd. rewrite Hv in Hd.
      injection Hd as ->. lia.
  - rewrite getYMax_otherwise by done.
    pose proof (d3_max_true_max (value <$> data)) as Hmax.
    unfold true_max in Hmax.
    destruct (d3_max (value <$> data)) as [[z|]|]; simpl in Hmax; [| done |].
    + split.
      { split; [done|]. intros Hnan. destruct Hmax as [Hz _].
        apply list_elem_of_fmap in Hz as (d & Hz & Hd).
        rewrite (Hnan d Hd) in Hz. done. }
      intros m [= <-]. exists z. split; [done|].
      intros d v Hd Hv. apply Hmax. rewrite <- Hv. by apply list_elem_of_fmap_2.
    + split; [|done]. split; [|done].
      intros _ d Hd. apply Hmax. by apply list_elem_of_fmap_2.
Qed.

(** ** exports.margin *)

(** X8: two calls of the margin setter amount to one call with the two
    arguments merged, the later one winning; the empty argument changes
    nothing, and so does a repeated call. *)
Theorem margin_updates_compose (c : Chart) (a b : gmap string Z) :
  exports_margin b (exports_margin a c) = exports_margin (b ∪ a) c
  ∧ exports_margin ∅ c = c
  ∧ exports_margin a (exports_margin a c) = exports_margin a c.
Proof.
  assert (∀ a b c, exports_margin b (exports_margin a c)
                   = exports_margin (b ∪ a) c) as Hcomp.
  { clear. intros a b c. unfold exports_margin, with_config, set_margin,
      spread_margin. simpl. do 3 f_equal;
      rewrite lookup_union; by destruct (b !! _), (a !! _). }
  split_and!.
  - apply Hcomp.
  - destruct c as [[[] ? ? ? ? ? ? ? ? ?] ? ? ? ? ? ? ? ? ? ? ? ? ?]. done.
  - rewrite Hcomp. f_equal. apply map_eq. intros k.
    rewrite lookup_union. by destruct (a !! k).
Qed.

(** ** cleanData, run again *)

Section renormalise.
Variable StringToNumber : string → jsnum.

Lemma js_read_cleanRow_other (lb : Labels) (d : RawRow) k :
  ¬ written_field k → js_read (cleanRow StringToNumber lb d) k = js_read d k.
Proof.
  intros Hk. unfold js_read, written_field in *.
  rewrite cleanRow_other; [done|..]; intros ->; apply Hk; auto.
Qed.

Lemma js_read_cleanRow_value (lb : Labels) (d : RawRow) :
  settled_labels lb →
  ToNumber StringToNumber (js_read (cleanRow StringToNumber lb d) (valueLabel lb))
  = ToNumber StringToNumber (js_read d (valueLabel lb)).
Proof.
  intros ([Hv|Hv] & _).
  - rewrite Hv. unfold js_read at 1. rewrite cleanRow_value. simpl.
    by rewrite Hv.
  - by rewrite js_read_cleanRow_other.
Qed.

Lemma js_read_cleanRow_group (lb : Labels) (d : RawRow) :
  settled_labels lb →
  groupLabel lb ≠ "value"%string
  ∧ js_read (cleanRow StringToNumber lb d) (groupLabel lb)
    = js_read d (groupLabel lb).
Proof.
  intros (_ & [Hg|Hg] & _).
  - rewrite Hg. split; [done|]. unfold js_read at 1.
    rewrite cleanRow_group, js_read_insert, Hg. simpl. done.
  - split; [|by rewrite js_read_cleanRow_other].
    intros Heq. apply Hg. rewrite Heq. by left.
Qed.

Lemma js_read_cleanRow_name (lb : Labels) (d : RawRow) :
  settled_labels lb →
  ¬ (nameLabel lb = "value"%string)
  ∧ ¬ (nameLabel lb = "group"%string ∨ nameLabel lb = "topicName"%string)
  ∧ js_read (cleanRow StringToNumber lb d) (nameLabel lb)
    = js_read d (nameLabel lb).
Proof.
  intros (_ & _ & [Hn|Hn]).
  - rewrite Hn. split_and!; [done|by intros [|]|].
    unfold js_read at 1. rewrite cleanRow_name, Hn. simpl. done.
  - unfold written_field in Hn.
    split_and!; [naive_solver|naive_solver|by rewrite js_read_cleanRow_other].
Qed.

Lemma cleanRow_idempotent (lb : Labels) (d : RawRow) :
  settled_labels lb →
  cleanRow StringToNumber lb (cleanRow StringToNumber lb d)
  = cleanRow StringToNumber lb d.
Proof.
  intros Hlb. apply map_eq. intros k.
  destruct (js_read_cleanRow_group lb d Hlb) as [Hgv Hg].
  destruct (js_read_cleanRow_name lb d Hlb) as (Hnv & Hng & Hn).
  assert (∀ d0, cleanRow StringToNumber lb d0 !! "group"%string
                = Some (js_read d0 (groupLabel lb))) as Hgroup.
  { intros d0. by rewrite cleanRow_group, js_read_insert, decide_False. }
  destruct (decide (k = "value"%string)) as [->|Hk1].
  { by rewrite !cleanRow_value, js_read_cleanRow_value. }
  destruct (decide (k = "group"%string)) as [->|Hk2].
  { by rewrite !Hgroup, Hg. }
  destruct (decide (k = "topicName"%string)) as [->|Hk3].
  { by rewrite !cleanRow_topicName, !Hgroup, Hg. }
  destruct (decide (k = "name"%string)) as [->|Hk4].
  { rewrite !cleanRow_name. by rewrite !decide_False, Hn by done. }
  by rewrite !cleanRow_other.
Qed.

(** X14: when each of the three field names is the canonical name of its
    role or none of the names that the normaliser writes, normalising an
    already normalised dataset changes nothing. *)
Theorem cleanData_idempotent (lb : Labels) (originalData : list RawRow) :
  settled_labels lb →
  cleanData StringToNumber lb (cleanData StringToNumber lb originalData)
  = cleanData StringToNumber lb originalData.
Proof.
  intros Hlb. rewrite !cleanData_fmap, <- list_fmap_compose.
  apply list_fmap_ext. intros i d _. simpl. by apply cleanRow_idempotent.
Qed.
End renormalise.

Lemma cleanData_idempotent_witness :
  cleanData no_numeral default_labels
            (cleanData no_numeral default_labels [raw_sample])
  = cleanData no_numeral default_labels [raw_sample].
Proof.
  apply (cleanData_idempotent no_numeral default_labels [raw_sample]).
  split_and!; by left.
Defined.

(** ** Rendering again *)

Lemma build_colors_is_Some (c : Chart) : is_Some (build_colors c).1.
Proof.
  unfold build_colors. destruct (nameToColorMap c); [by eexists|].
  destruct (derive_color_map _ _). by eexists.
Qed.

Lemma render_color_map_Some (_data : list Row) (c : Chart) :
  isLoading (config c) = false → is_Some (nameToColorMap (render _data c)).
Proof.
  intros Hl. rewrite render_unfold by done. simpl.
  rewrite buildScales_color_map. apply build_colors_is_Some.
Qed.

(** A render of a chart that has a colour map, spelled out. *)
Lemma render_with_map (_data : list Row) (c : Chart) (m : ColorMap) :
  isLoading (config c) = false → nameToColorMap c = Some m →
  render _data c
  = let c1 := prepareData (bind_data _data c) in
    let ls := buildLayers (prepare_groups _data)
                          (prepare_transformed (labels (config c)) _data) in
    {| config := config c; nameToColorMap := Some m;
       chartWidth := chartWidth c1; chartHeight := chartHeight c1;
       data := _data; groups := prepare_groups _data;
       transformedData := prepare_transformed (labels (config c)) _data;
       layers := ls;
       xScale := xScale (buildScales c1);
       xScale2 := xScale2 (buildScales c1);
       yScale := yScale (buildScales c1);
       yScale2 := yScale2 (buildScales c1);
       colorScale := Some (mkOrdinal (ordinal_domain (getGroup <$> _data))
                                     (colorSchema (config c)));
       animationDelays := delay_table (animationDelayStep (config c)) ls |}.
Proof.
  intros Hl Hm. rewrite render_unfold by done.
  unfold drawGroupedBar, buildLayers_step, buildScales, build_colors.
  simpl. rewrite Hm. by destruct (isHorizontal (config c)).
Qed.

Lemma render_fixed (_data : list Row) (c : Chart) :
  is_Some (nameToColorMap c) ∨ isLoading (config c) = true →
  render _data (render _data c) = render _data c.
Proof.
  destruct (isLoading (config c)) eqn:Hl.
  - intros _. unfold render. simpl. rewrite Hl. simpl. by rewrite Hl.
  - intros [[m Hm]|?]; [|done].
    rewrite (render_with_map _data c m Hl Hm). cbv zeta.
    rewrite (render_with_map _data _ m); [|done|done]. cbv zeta.
    unfold buildScales. simpl.
    by destruct (isHorizontal (config c)).
Qed.

Lemma buildScales_dims (c : Chart) :
  chartWidth (buildScales c) = chartWidth c
  ∧ chartHeight (buildScales c) = chartHeight c.
Proof. unfold buildScales. by destruct (isHorizontal (config c)). Qed.

Lemma buildScales_scales (c1 c2 : Chart) :
  config c2 = config c1 → data c2 = data c1 →
  chartWidth c2 = chartWidth c1 → chartHeight c2 = chartHeight c1 →
  xScale2 c2 = xScale2 (buildScales c1) →
  yScale2 c2 = yScale2 (buildScales c1) →
  xScale (buildScales c2) = xScale (buildScales c1)
  ∧ xScale2 (buildScales c2) = xScale2 (buildScales c1)
  ∧ yScale (buildScales c2) = yScale (buildScales c1)
  ∧ yScale2 (buildScales c2) = yScale2 (buildScales c1).
Proof.
  unfold buildScales, horizontal_yScale2, horizontal_yScale,
    vertical_xScale2, vertical_xScale.
  intros -> -> -> ->.
  destruct (isHorizontal (config c1)); simpl; intros Hx Hy;
    by rewrite ?Hx, ?Hy.
Qed.

(** A render that the loading flag does not suspend, spelled out. *)
Lemma render_explicit (_data : list Row) (c : Chart) :
  isLoading (config c) = false →
  render _data c
  = let c1 := prepareData (bind_data _data c) in
    let ls := buildLayers (prepare_groups _data)
                          (prepare_transformed (labels (config c)) _data) in
    {| config := config c; nameToColorMap := (build_colors c1).1;
       chartWidth := chartWidth c1; chartHeight := chartHeight c1;
       data := _data; groups := prepare_groups _data;
       transformedData := prepare_transformed (labels (config c)) _data;
       layers := ls;
       xScale := xScale (buildScales c1);
       xScale2 := xScale2 (buildScales c1);
       yScale := yScale (buildScales c1);
       yScale2 := yScale2 (buildScales c1);
       colorScale := Some (build_colors c1).2;
       animationDelays := delay_table (animationDelayStep (config c)) ls |}.
Proof.
  intros Hl. rewrite render_unfold by done.
  unfold drawGroupedBar, buildLayers_step, buildScales.
  simpl. by destruct (isHorizontal (config c)).
Qed.

(** The body of [exports] run again at the same rows. *)
Lemma render_twice (c : Chart) (_data : list Row) :
  let once := render _data c in
  let twice := render _data once in
  config twice = config once
  ∧ nameToColorMap twice = nameToColorMap once
  ∧ chartWidth twice = chartWidth once
  ∧ chartHeight twice = chartHeight once
  ∧ data twice = data once
  ∧ groups twice = groups once
  ∧ transformedData twice = transformedData once
  ∧ layers twice = layers once
  ∧ xScale twice = xScale once ∧ xScale2 twice = xScale2 once
  ∧ yScale twice = yScale once ∧ yScale2 twice = yScale2 once
  ∧ animationDelays twice = animationDelays once
  ∧ render _data twice = twice
  ∧ (is_Some (nameToColorMap c) ∨ isLoading (config c) = true →
     twice = once).
Proof.
  cbv zeta.
  destruct (isLoading (config c)) eqn:Hl.
  { assert (render _data (render _data c) = render _data c) as Heq
      by (apply render_fixed; by right).
    rewrite !Heq. split_and!; done. }
  assert (render _data (render _data (render _data c))
          = render _data (render _data c)) as Hfix.
  { apply render_fixed. left. by apply render_color_map_Some. }
  split_and!; try done;
    try (intros [Hsome|?]; [by apply render_fixed; left|done]).
  all: rewrite (render_explicit _data c Hl); cbv zeta;
    set (c1 := prepareData (bind_data _data c));
    destruct (build_colors_is_Some c1) as [m Hm];
    destruct (build_colors c1) as [o s0]; simpl in Hm; subst o;
    rewrite (render_with_map _data _ m) by done; cbv zeta; simpl;
    try done.
  all: match goal with
       | |- context [buildScales ?c2] =>
           destruct (buildScales_scales c1 c2) as (? & ? & ? & ?)
       end; try done.
Qed.

(** X15: when each of the three field names is the canonical name of its
    role or none of the names that the normaliser writes, rendering again
    the array that a render has left bound to the selection, its rows
    rewritten in place, has a result, and leaves the options, the colour
    map, the drawable area, the data, the groups, the layers, the four
    positional scales and the delay table as the first render left them;
    from the second render on nothing changes at all, and nothing changes
    already at the second when the chart had a colour map or is loading
    (otherwise the colour scale alone can differ). *)
Theorem exports_twice (StringToNumber : string → jsnum) (c once : Chart)
    (_data : list RawRow) :
  settled_labels (labels (config c)) →
  exports StringToNumber _data c = Some once →
  ∃ twice : Chart,
    exports StringToNumber (bound_after StringToNumber _data c) once
    = Some twice
    ∧ config twice = config once
    ∧ nameToColorMap twice = nameToColorMap once
    ∧ chartWidth twice = chartWidth once
    ∧ chartHeight twice = chartHeight once
    ∧ data twice = data once
    ∧ groups twice = groups once
    ∧ transformedData twice = transformedData once
    ∧ layers twice = layers once
    ∧ xScale twice = xScale once ∧ xScale2 twice = xScale2 once
    ∧ yScale twice = yScale once ∧ yScale2 twice = yScale2 once
    ∧ animationDelays twice = animationDelays once
    ∧ exports StringToNumber
        (bound_after StringToNumber
           (bound_after StringToNumber _data c) once) twice
      = Some twice
    ∧ (is_Some (nameToColorMap c) ∨ isLoading (config c) = true →
       twice = once).
Proof.
  intros Hlb. unfold exports, bound_after.
  destruct (as_rows (cleanData StringToNumber (labels (config c)) _data))
    as [rows|] eqn:Hrows; [|done].
  simpl. intros [= <-].
  assert (∀ l, cleanData StringToNumber (labels (config c))
                 (cleanData StringToNumber (labels (config c)) l)
               = cleanData StringToNumber (labels (config c)) l) as Hagain.
  { intros l. rewrite !cleanData_fmap, <- list_fmap_compose.
    apply list_fmap_ext. intros i d _. simpl. by apply cleanRow_idempotent. }
  exists (render rows (render rows c)).
  rewrite !render_config, !Hagain, Hrows. simpl.
  destruct (render_twice c rows)
    as (? & ? & ? & ? & ? & ? & ? & ? & ? & ? & ? & ? & ? & Hfix & ?).
  rewrite Hfix. split_and!; done.
Qed.

Lemma exports_twice_witness :
  ∃ twice : Chart,
    exports no_numeral (bound_after no_numeral [raw_sample] sample_chart)
            (render [mkRow "A" "X" NaN] sample_chart)
    = Some twice
    ∧ data twice = data (render [mkRow "A" "X" NaN] sample_chart)
    ∧ layers twice = layers (render [mkRow "A" "X" NaN] sample_chart).
Proof.
  destruct (exports_twice no_numeral sample_chart
              (render [mkRow "A" "X" NaN] sample_chart) [raw_sample])
    as (twice & Htwice & _ & _ & _ & _ & Hdata & _ & _ & Hlayers & _).
  - split_and!; by left.
  - reflexivity.
  - exists twice. split_and!; [exact Htwice|exact Hdata|exact Hlayers].
Defined.

(** Without the condition on the field names the second render differs:
    with the category read from [date] and the group from [name], the
    first render of [{name: "Direct", date: "2011-01", value: 5}] finds
    the group "Direct", and the second, which reads the name that the
    first has written, the group "2011-01". *)
Example exports_again_regroups :
  groups <$> exports no_numeral [raw_dated] dated_chart
  = Some ["Direct"]%string
  ∧ groups <$> exports no_numeral
                 (bound_after no_numeral [raw_dated] dated_chart)
                 (render [dated_row] dated_chart)
    = Some ["2011-01"]%string.
Proof. split; by vm_compute. Qed.

(** ** The colour map *)

Lemma ordinal_call_range (s : ordinal_scale) (d : string) :
  ord_range (ordinal_call s d).2 = ord_range s.
Proof. unfold ordinal_call. by destruct (indexOf _ _). Qed.

Lemma ordinal_pick_elem (range : list string) (i : nat) :
  range ≠ [] → ∃ col, ordinal_pick range i = Some col ∧ col ∈ range.
Proof.
  intros Hne. unfold ordinal_pick. destruct range as [|r range]; [done|].
  destruct (lookup_lt_is_Some_2 (r :: range) (i mod length (r :: range)))
    as [col Hcol].
  { apply Nat.mod_upper_bound. simpl. lia. }
  exists col. split; [done|]. by eapply list_elem_of_lookup_2.
Qed.

Lemma ordinal_call_colour (s : ordinal_scale) (d : string) :
  match (ordinal_call s d).1 with
  | Some col => col ∈ ord_range s
  | None => ord_range s = []
  end.
Proof.
  unfold ordinal_call.
  destruct (decide (ord_range s = [])) as [Hnil|Hne].
  - destruct (indexOf _ _); simpl; by rewrite Hnil.
  - destruct (indexOf _ _) as [i|]; simpl.
    + by destruct (ordinal_pick_elem _ i Hne) as (col & -> & ?).
    + by destruct (ordinal_pick_elem _ (length (ord_domain s)) Hne)
        as (col & -> & ?).
Qed.

Lemma derive_step_invariant (palette : list string) (data : list Row)
    (item : string) (acc : ColorMap * ordinal_scale) (d : Row) :
  d ∈ data → ord_range acc.2 = palette → colours_of palette data acc.1 →
  ord_range (derive_step item acc d).2 = palette
  ∧ colours_of palette data (derive_step item acc d).1
  ∧ (∀ g, is_Some (acc.1 !! g) → is_Some ((derive_step item acc d).1 !! g))
  ∧ (name d = item → group d ≠ "__proto__"%string →
     is_Some ((derive_step item acc d).1 !! group d)).
Proof.
  intros Hd Hr Hc. unfold derive_step.
  destruct (decide (name d = item)) as [Hn|Hn]; [|done].
  pose proof (ordinal_call_range acc.2 (group d)) as Hrange.
  pose proof (ordinal_call_colour acc.2 (group d)) as Hcol.
  destruct (ordinal_call acc.2 (group d)) as [o s']. simpl in *.
  split_and!.
  - by rewrite Hrange.
  - intros g o'. unfold js_set. case_decide as Hp; [apply Hc|].
    rewrite lookup_insert. case_decide as Hg; [|apply Hc].
    intros [= <-]. subst g. split_and!; [by apply list_elem_of_fmap_2|done|].
    by rewrite <- Hr.
  - intros g Hg. unfold js_set. case_decide; [done|].
    rewrite lookup_insert. by case_decide.
  - intros _ Hp. by rewrite js_set_lookup_eq.
Qed.

Lemma derive_inner_invariant (palette : list string) (data rows : list Row)
    (item : string) (acc : ColorMap * ordinal_scale) :
  rows ⊆ data → ord_range acc.2 = palette → colours_of palette data acc.1 →
  let acc' := fold_left (derive_step item) rows acc in
  ord_range acc'.2 = palette
  ∧ colours_of palette data acc'.1
  ∧ (∀ g, is_Some (acc.1 !! g) → is_Some (acc'.1 !! g))
  ∧ (∀ d, d ∈ rows → name d = item → group d ≠ "__proto__"%string →
          is_Some (acc'.1 !! group d)).
Proof.
  revert acc. induction rows as [|d rows IH]; intros acc Hsub Hr Hc; simpl.
  - split_and!; try done. intros d Hd. by apply elem_of_nil in Hd.
  - destruct (derive_step_invariant palette data item acc d)
      as (Hr' & Hc' & Hmono & Hset); [apply Hsub; by left|done|done|].
    destruct (IH (derive_step item acc d)) as (Hr'' & Hc'' & Hmono' & Hset');
      [intros x Hx; apply Hsub; by right|done|done|].
    split_and!; try done.
    + intros g Hg. by apply Hmono', Hmono.
    + intros d' [->|Hd']%elem_of_cons Hn Hp.
      * by apply Hmono', Hset.
      * by apply Hset'.
Qed.

Lemma derive_outer_invariant (palette : list string) (data : list Row)
    (items : list string) (acc : ColorMap * ordinal_scale) :
  ord_range acc.2 = palette → colours_of palette data acc.1 →
  let acc' := fold_left (λ acc item, fold_left (derive_step item) data acc)
                        items acc in
  colours_of palette data acc'.1
  ∧ (∀ g, is_Some (acc.1 !! g) → is_Some (acc'.1 !! g))
  ∧ (∀ d, d ∈ data → name d ∈ items → group d ≠ "__proto__"%string →
          is_Some (acc'.1 !! group d)).
Proof.
  revert acc. induction items as [|item items IH]; intros acc Hr Hc; simpl.
  - split_and!; try done. intros d _ Hd. by apply elem_of_nil in Hd.
  - destruct (derive_inner_invariant palette data data item acc)
      as (Hr' & Hc' & Hmono & Hset); [done|done|done|].
    destruct (IH (fold_left (derive_step item) data acc))
      as (Hc'' & Hmono' & Hset'); [done|done|].
    split_and!; try done.
    + intros g Hg. by apply Hmono', Hmono.
    + intros d Hd [Hn|Hn]%elem_of_cons Hp.
      * by apply Hmono', Hset.
      * by apply Hset'.
Qed.

(** The map that the tail of [buildScales] derives. *)
Lemma build_colors_derives (c : Chart) :
  nameToColorMap c = None →
  ∃ m : ColorMap,
    (build_colors c).1 = Some m
    ∧ (∀ g, is_Some (m !! g)
            ↔ g ∈ group <$> data c ∧ g ≠ "__proto__"%string)
    ∧ (∀ g o, m !! g = Some o →
         match o with
         | Some col => col ∈ colorSchema (config c)
         | None => colorSchema (config c) = []
         end).
Proof.
  intros Hnone. unfold build_colors.
  rewrite Hnone. simpl.
  set (s0 := mkOrdinal (ordinal_domain (getName <$> data c))
                       (colorSchema (config c))).
  destruct (derive_outer_invariant (colorSchema (config c)) (data c)
              (ord_domain s0) (∅, s0))
    as (Hc & _ & Hset); [done| |].
  { intros g o Hg. simpl in Hg. by rewrite lookup_empty in Hg. }
  unfold derive_color_map.
  destruct (fold_left _ (ord_domain s0) (∅, s0)) as [m s'].
  exists m. split; [done|]. simpl in *. split.
  - intros g. split.
    + intros [o Ho]. by destruct (Hc g o Ho) as (? & ? & _).
    + intros [(d & -> & Hd)%list_elem_of_fmap Hp]. apply Hset; [done| |done].
      unfold s0. simpl. rewrite ordinal_domain_first_seen.
      apply elem_of_first_seen. by apply list_elem_of_fmap_2.
  - intros g o Ho. by destruct (Hc g o Ho) as (_ & _ & ?).
Qed.

(** X16: when no colour map is set, [buildScales] derives one whose keys
    are exactly the group keys of the data ([__proto__] apart), each with
    a colour of the palette, or with [undefined] when the palette is
    empty. *)
Theorem derived_color_map (c : Chart) :
  nameToColorMap c = None →
  ∃ m : ColorMap,
    nameToColorMap (buildScales c) = Some m
    ∧ (∀ g, is_Some (m !! g)
            ↔ g ∈ group <$> data c ∧ g ≠ "__proto__"%string)
    ∧ (∀ g o, m !! g = Some o →
         match o with
         | Some col => col ∈ colorSchema (config c)
         | None => colorSchema (config c) = []
         end).
Proof.
  intros Hnone. rewrite buildScales_color_map.
  destruct (build_colors_derives c Hnone) as (m & Hm & Hkeys & Hcolours).
  exists m. split_and!; [exact Hm|exact Hkeys|exact Hcolours].
Qed.

Lemma derived_color_map_witness :
  ∃ m : ColorMap,
    nameToColorMap (buildScales (bind_data scenario sample_chart)) = Some m
    ∧ (∀ g, is_Some (m !! g)
            ↔ g ∈ group <$> data (bind_data scenario sample_chart)
              ∧ g ≠ "__proto__"%string)
    ∧ (∀ g o, m !! g = Some o →
         match o with
         | Some col => col ∈ colorSchema (config (bind_data scenario sample_chart))
         | None => colorSchema (config (bind_data scenario sample_chart)) = []
         end).
Proof.
  apply (derived_color_map (bind_data scenario sample_chart)). reflexivity.
Defined.

(** X17: the colour map of the first render that the loading flag does
    not suspend is the map of every later render, whatever the data: a
    chart first rendered without a colour map keeps the colours of the
    groups of that first dataset, and none when it was empty. *)
Theorem first_render_fixes_colours (c : Chart) (first later : list Row) :
  isLoading (config c) = false →
  nameToColorMap (render later (render first c))
  = nameToColorMap (render first c)
  ∧ (nameToColorMap c = None →
     ∃ m : ColorMap,
       nameToColorMap (render later (render first c)) = Some m
       ∧ ∀ g, is_Some (m !! g)
              ↔ g ∈ group <$> first ∧ g ≠ "__proto__"%string).
Proof.
  intros Hl.
  destruct (render_color_map_Some first c Hl) as [m Hm].
  assert (nameToColorMap (render later (render first c))
          = nameToColorMap (render first c)) as Hkeep.
  { rewrite Hm. by apply render_color_map_kept. }
  split; [done|]. intros Hnone. rewrite Hkeep.
  rewrite render_unfold by done. simpl. rewrite buildScales_color_map.
  destruct (build_colors_derives (prepareData (bind_data first c)) Hnone)
    as (m' & Hm' & Hdom & _).
  exists m'. split; [done|]. exact Hdom.
Qed.

Lemma first_render_fixes_colours_witness :
  nameToColorMap (render scenario (render [] sample_chart))
  = nameToColorMap (render [] sample_chart)
  ∧ (nameToColorMap sample_chart = None →
     ∃ m : ColorMap,
       nameToColorMap (render scenario (render [] sample_chart)) = Some m
       ∧ ∀ g, is_Some (m !! g)
              ↔ g ∈ group <$> ([] : list Row) ∧ g ≠ "__proto__"%string).
Proof.
  apply (first_render_fixes_colours sample_chart [] scenario). reflexivity.
Defined.
